(** * Leela Chess Zero: the search graph of [mcts/node.h]

    A shallow embedding of the classes declared in [src/mcts/node.h]
    ([Edge], [Node], [LowNode], [EdgeAndNode], [VisitedNode_Iterator]) and
    the properties of them that the specification states.

    Conventions.
    - A [uintN_t] field is a [Z] kept in range by an explicit wrap-around
      ([u8], [u16], [u32]).
    - [float] and [double] values are elements of a type [F] that comes with
      the arithmetic the code uses (class [FloatOps]); nothing is assumed of
      that arithmetic, so every general statement holds whatever the rounding
      is.  The literal scenarios are evaluated at the instance of exact
      rationals.
    - A [Node*] into the child arrays of a [LowNode] is a [NodePtr], the slot
      it designates; [nullptr] is [None].
    - [assert] aborts in a debug build and is compiled out in a release
      build ([BuildMode]); an aborted call has no result ([None]). *)

From Stdlib Require Import ZArith QArith Lia Bool.
From stdpp Require Import base option list relations sorting.

Local Open Scope Z_scope.

(** ** Fixed-width integers *)

Definition u8 (x : Z) : Z := x mod 2 ^ 8.
Definition u16 (x : Z) : Z := x mod 2 ^ 16.
Definition u32 (x : Z) : Z := x mod 2 ^ 32.

(** ** Floating-point values *)

(** The operations on [float]/[double] that the header's inline functions and
    the running-mean update use.  [f_of_Z] is the conversion of an integer
    operand. *)
Class FloatOps (F : Type) : Type := {
  f_zero : F;
  f_add : F -> F -> F;
  f_sub : F -> F -> F;
  f_mul : F -> F -> F;
  f_div : F -> F -> F;
  f_of_Z : Z -> F
}.

(** Exact rational arithmetic, used to evaluate the literal scenarios. *)
#[export] Instance Q_FloatOps : FloatOps Q := {|
  f_zero := 0%Q;
  f_add := Qplus;
  f_sub := Qminus;
  f_mul := Qmult;
  f_div := Qdiv;
  f_of_Z := inject_Z
|}.

(** ** Assertions *)

Inductive BuildMode : Type := Debug | Release.

(** [assert(c)]: aborts ([None]) in a debug build when [c] is false. *)
Definition assert_ (mode : BuildMode) (c : bool) : option unit :=
  match mode with
  | Debug => if c then Some tt else None
  | Release => Some tt
  end.

(** A pointer that is not [nullptr]. *)
Definition non_null {A : Type} (o : option A) : bool :=
  match o with Some _ => true | None => false end.

(** ** Enumerations *)

(** Modelled from the spec: [GameResult] is declared in [chess/position.h],
    which is not part of this header; the specification orders it
    BlackWon < Draw < WhiteWon. *)
Inductive GameResult : Type := BLACK_WON | DRAW | WHITE_WON.

Definition Bounds : Type := (GameResult * GameResult)%type.

Inductive Terminal : Type := NonTerminal | EndOfGame | Tablebase.

Definition Terminal_eqb (a b : Terminal) : bool :=
  match a, b with
  | NonTerminal, NonTerminal | EndOfGame, EndOfGame | Tablebase, Tablebase => true
  | _, _ => false
  end.

(** Modelled from the spec: [Move] is declared in [chess/board.h], which is
    not part of this header; a move is kept as its 16-bit code. *)
Definition Move : Type := Z.

Definition MoveList : Type := list Move.

(** ** IEEE-754 binary32 patterns

    [Edge::SetP] and [Edge::GetP] work on the bit pattern of their [float].
    A non-negative finite [float] with pattern [bits] has exponent field
    [bits / 2^23] and fraction field [bits mod 2^23]. *)

Definition float_exponent (bits : Z) : Z := bits / 2 ^ 23.
Definition float_fraction (bits : Z) : Z := bits mod 2 ^ 23.

(** The value of the pattern, in units of [2^-149]. *)
Definition float_scaled (bits : Z) : Z :=
  if float_exponent bits =? 0 then float_fraction bits
  else (2 ^ 23 + float_fraction bits) * 2 ^ (float_exponent bits - 1).

(** The real number a non-negative finite pattern denotes. *)
Definition float_value (bits : Z) : Q :=
  Qmake (float_scaled bits) (2 ^ 149)%positive.

(** The patterns of [0.0f] and [1.0f]. *)
Definition float_zero_bits : Z := 0.
Definition float_one_bits : Z := 0x3F800000.

(** ** Edge *)

Module Edge.

Record t : Type := Make {
  move_ : Move;
  (** uint16_t: the prior, 5 bits of exponent and 11 bits of significand *)
  p_ : Z
}.

(** Modelled from the spec: [Edge::FromMovelist] is defined in [node.cc];
    "from a move list, produces an owned array of Edges with zero
    priors". *)
Definition FromMovelist (moves : MoveList) : list t :=
  map (fun m => {| move_ := m; p_ := 0 |}) moves.

Definition roundings : Z := Z.shiftl 1 11 - Z.shiftl 3 28.

(** Modelled from the spec: [Edge::SetP] is defined in [node.cc].  The
    16-bit format keeps, of the binary32 pattern [val] of a prior in
    [0,1], the five low bits of the exponent and the eleven high bits of
    the fraction, rounded to nearest; anything below the smallest code
    becomes code 0. *)
Definition encode (val : Z) : Z :=
  let tmp := val + roundings in
  if tmp <? 0 then 0 else u16 (Z.shiftr tmp 12).

(** Modelled from the spec: [Edge::GetP] is defined in [node.cc].  The
    code is shifted back into place and the three exponent bits that every
    prior in [2^-31, 2) shares are restored; the result is a binary32
    pattern. *)
Definition decode (p : Z) : Z :=
  Z.lor (u32 (Z.shiftl p 12)) (Z.shiftl 3 28).

(** [SetP] and [GetP] take and return the [float] as its binary32
    pattern. *)
Definition SetP (e : t) (val : Z) : t :=
  {| move_ := move_ e; p_ := encode val |}.

Definition GetP (e : t) : Z := decode (p_ e).

(** The patterns [GetP] can return. *)
Definition representable (val : Z) : bool :=
  (0 <=? val) && (Z.land val (2 ^ 12 - 1) =? 0) && (Z.shiftr val 28 =? 3).

(** Modelled from the spec: [Edge::SortEdges] is defined in [node.cc];
    "sort-in-place by descending prior".  [e] is inserted before the
    first edge whose prior is not larger, so equal priors keep their
    order.  The specification leaves the order of equal priors open: that
    order is a choice made here, and no property stated below rests on
    it. *)
Fixpoint insert_desc (e : t) (es : list t) : list t :=
  match es with
  | [] => [e]
  | x :: rest => if p_ x <=? p_ e then e :: es else x :: insert_desc e rest
  end.

(** Modelled from the spec: insertion sort by descending prior. *)
Definition sort_desc (es : list t) : list t :=
  foldr insert_desc [] es.

(** Modelled from the spec: [Edge::SortEdges(edges, num_edges)] sorts the
    first [num_edges] edges of the array. *)
Definition SortEdges (edges : list t) (num_edges : Z) : list t :=
  sort_desc (take (Z.to_nat num_edges) edges) ++ drop (Z.to_nat num_edges) edges.

End Edge.

(** ** Node: a realized edge *)

Module Node.

(** Magic index constant - Node was constructed. *)
Definition kMagicIndexConstructed : Z := 65535.
(** Magic index constant - Node is being assigned. *)
Definition kMagicIndexAssigned : Z := 32767.

Section WithFloat.
Context {F : Type} {FO : FloatOps F}.

Record t : Type := Make {
  wl_ : F;                      (* double *)
  low_node_ : option Z;         (* LowNode*: the address of the low node *)
  d_ : F;                       (* float *)
  m_ : F;                       (* float *)
  n_ : Z;                       (* uint32_t *)
  n_in_flight_ : Z;             (* std::atomic<uint32_t> *)
  edge_ : Edge.t;
  index_ : Z;                   (* std::atomic<uint16_t> *)
  terminal_type_ : Terminal;
  lower_bound_ : GameResult;
  upper_bound_ : GameResult
}.

(** [Node()] *)
Definition constructed : t := {|
  wl_ := f_zero; low_node_ := None; d_ := f_zero; m_ := f_zero;
  n_ := 0; n_in_flight_ := 0;
  edge_ := {| Edge.move_ := 0; Edge.p_ := 0 |};
  index_ := kMagicIndexConstructed;
  terminal_type_ := NonTerminal;
  lower_bound_ := BLACK_WON; upper_bound_ := WHITE_WON |}.

(** [Node(const Edge& edge, uint16_t index)] *)
Definition create (edge : Edge.t) (index : Z) : t := {|
  wl_ := f_zero; low_node_ := None; d_ := f_zero; m_ := f_zero;
  n_ := 0; n_in_flight_ := 0;
  edge_ := edge;
  index_ := u16 index;
  terminal_type_ := NonTerminal;
  lower_bound_ := BLACK_WON; upper_bound_ := WHITE_WON |}.

Definition GetN (nd : t) : Z := n_ nd.

(** Modelled from the spec: [Node::GetNInFlight] is defined in
    [node.cc]; it reads the atomic [n_in_flight_]. *)
Definition GetNInFlight (nd : t) : Z := n_in_flight_ nd.

(** Returns n + n_in_flight, as an [int]: the unsigned sum is converted
    to a 32-bit signed value. *)
Definition GetNStarted (nd : t) : Z :=
  let s := u32 (n_ nd + n_in_flight_ nd) in
  if s <? 2 ^ 31 then s else s - 2 ^ 32.

Definition GetQ (nd : t) (draw_score : F) : F :=
  f_add (wl_ nd) (f_mul draw_score (d_ nd)).
Definition GetWL (nd : t) : F := wl_ nd.
Definition GetD (nd : t) : F := d_ nd.
Definition GetM (nd : t) : F := m_ nd.

Definition IsTerminal (nd : t) : bool :=
  negb (Terminal_eqb (terminal_type_ nd) NonTerminal).
Definition IsTbTerminal (nd : t) : bool :=
  Terminal_eqb (terminal_type_ nd) Tablebase.
Definition GetBounds (nd : t) : Bounds := (lower_bound_ nd, upper_bound_ nd).

Definition Index (nd : t) : Z := index_ nd.

(** Check if node was realized (not just constructed). *)
Definition Realized (nd : t) : bool := index_ nd <? kMagicIndexAssigned.

Definition set_n_in_flight (nd : t) (v : Z) : t := {|
  wl_ := wl_ nd; low_node_ := low_node_ nd; d_ := d_ nd; m_ := m_ nd;
  n_ := n_ nd; n_in_flight_ := v;
  edge_ := edge_ nd; index_ := index_ nd;
  terminal_type_ := terminal_type_ nd;
  lower_bound_ := lower_bound_ nd; upper_bound_ := upper_bound_ nd |}.

Definition set_stats (nd : t) (wl d m : F) (n nif : Z) : t := {|
  wl_ := wl; low_node_ := low_node_ nd; d_ := d; m_ := m;
  n_ := n; n_in_flight_ := nif;
  edge_ := edge_ nd; index_ := index_ nd;
  terminal_type_ := terminal_type_ nd;
  lower_bound_ := lower_bound_ nd; upper_bound_ := upper_bound_ nd |}.

(** Modelled from the spec: what [LowNode::InsertChildAt] does to the slot
    it has claimed, "writes the edge copy, and publishes with a release
    store to its final index"; the statistics stay those of the constructed
    node. *)
Definition assign (nd : t) (edge : Edge.t) (index : Z) : t := {|
  wl_ := wl_ nd; low_node_ := low_node_ nd; d_ := d_ nd; m_ := m_ nd;
  n_ := n_ nd; n_in_flight_ := n_in_flight_ nd;
  edge_ := edge; index_ := index;
  terminal_type_ := terminal_type_ nd;
  lower_bound_ := lower_bound_ nd; upper_bound_ := upper_bound_ nd |}.

(** *** The virtual-loss protocol *)

(** Modelled from the spec: [Node::TryStartScoreUpdate] is defined in
    [node.cc].  "Succeeds and increments n_in_flight by 1 iff the node is
    not being exclusively expanded by another thread.  The forbidden
    state is [n == 0 && n_in_flight == 1].  Implemented as an atomic
    load-compare-CAS loop on n_in_flight."

    One call is a small machine over the shared node: it loads
    [n_in_flight_], gives up in the forbidden state, and otherwise tries
    to install the incremented value, starting over when another thread
    changed the counter in between. *)
Inductive call : Type :=
| AtLoad
| AtCas (expected : Z)
| Returned (result : bool).

(** Modelled from the spec: one atomic action of a call of
    [TryStartScoreUpdate], the load with its test or the compare-and-swap. *)
Definition try_start_step (nd : t) (c : call) : t * call :=
  match c with
  | AtLoad =>
      let cur := n_in_flight_ nd in
      if (n_ nd =? 0) && (cur =? 1) then (nd, Returned false)
      else (nd, AtCas cur)
  | AtCas expected =>
      if n_in_flight_ nd =? expected
      then (set_n_in_flight nd (u32 (expected + 1)), Returned true)
      else (nd, AtLoad)
  | Returned b => (nd, Returned b)
  end.

(** Modelled from the spec: [Node::TryStartScoreUpdate], the call run to
    completion with no other thread in between (see [try_start_step]). *)
Definition TryStartScoreUpdate (nd : t) : bool * t :=
  let cur := n_in_flight_ nd in
  if (n_ nd =? 0) && (cur =? 1) then (false, nd)
  else (true, set_n_in_flight nd (u32 (cur + 1))).

(** Modelled from the spec: [Node::CancelScoreUpdate] is defined in
    [node.cc]; "decrements n_in_flight by k". *)
Definition CancelScoreUpdate (nd : t) (multivisit : Z) : t :=
  set_n_in_flight nd (u32 (n_in_flight_ nd - multivisit)).

(** Modelled from the spec: [Node::IncrementNInFlight] is defined in
    [node.cc]; "bulk virtual-loss increment". *)
Definition IncrementNInFlight (nd : t) (multivisit : Z) : t :=
  set_n_in_flight nd (u32 (n_in_flight_ nd + multivisit)).

(** Modelled from the spec: the running mean [x + k * (v - x) / (n + k)]
    of [FinalizeScoreUpdate], the divisor being the 32-bit unsigned sum. *)
Definition merge (x v : F) (n k : Z) : F :=
  f_add x (f_div (f_mul (f_of_Z k) (f_sub v x)) (f_of_Z (u32 (n + k)))).

(** Modelled from the spec: [Node::FinalizeScoreUpdate] is defined in
    [node.cc].  "Merges a new value into the running means under the
    weighting n <- n + k, wl <- wl + k*(v - wl)/(n+k), etc., then sets
    n += k and n_in_flight -= k." *)
Definition FinalizeScoreUpdate (nd : t) (v d m : F) (multivisit : Z) : t :=
  set_stats nd
    (merge (wl_ nd) v (n_ nd) multivisit)
    (merge (d_ nd) d (n_ nd) multivisit)
    (merge (m_ nd) m (n_ nd) multivisit)
    (u32 (n_ nd + multivisit))
    (u32 (n_in_flight_ nd - multivisit)).

End WithFloat.

Arguments t F : clear implicits.

End Node.


(** ** LowNode: a position with its edges and realized children *)

(** A [Node*] into the child storage of a low node: a slot of the inline
    array [static_children_] or of the dynamically allocated array. *)
Inductive NodePtr : Type :=
| InStatic (k : nat)
| InDynamic (k : nat).

(** The evaluation handed to [LowNode::SetNNEval]. *)
Record NNEval {F : Type} : Type := MakeNNEval {
  eval_edges : list Edge.t;
  eval_q : F;
  eval_d : F;
  eval_m : F;
  eval_num_edges : Z                (* uint8_t *)
}.
Arguments NNEval F : clear implicits.

Module LowNode.

(** How many children/realized edges are inlined here. *)
Definition kStaticChildrenArraySize : Z := 2.
(** Number of dynamically allocated array for children/realized edges. *)
Definition kDynamicChildrenArrayCount : Z := 1.

Section WithFloat.
Context {F : Type} {FO : FloatOps F}.

Record t : Type := Make {
  static_children_ : list (Node.t F);          (* Node[kStaticChildrenArraySize] *)
  wl_ : F;                                     (* double *)
  edges_ : option (list Edge.t);               (* std::unique_ptr<Edge[]> *)
  dynamic_children_ : option (list (Node.t F)); (* the one std::atomic<Node*> *)
  d_ : F;                                      (* float *)
  m_ : F;                                      (* float *)
  n_ : Z;                                      (* uint32_t *)
  allocated_children_ : Z;                     (* std::atomic<uint16_t> *)
  num_parents_ : Z;                            (* uint16_t *)
  num_edges_ : Z;                              (* uint8_t *)
  terminal_type_ : Terminal;
  lower_bound_ : GameResult;
  upper_bound_ : GameResult;
  is_transposition : bool
}.

(** [LowNode()] *)
Definition empty : t := {|
  static_children_ := [Node.constructed; Node.constructed];
  wl_ := f_zero; edges_ := None; dynamic_children_ := None;
  d_ := f_zero; m_ := f_zero; n_ := 0;
  allocated_children_ := kStaticChildrenArraySize;
  num_parents_ := 0; num_edges_ := 0;
  terminal_type_ := NonTerminal;
  lower_bound_ := BLACK_WON; upper_bound_ := WHITE_WON;
  is_transposition := false |}.

Definition set_edges (p : t) (edges : option (list Edge.t)) (num_edges : Z) : t := {|
  static_children_ := static_children_ p;
  wl_ := wl_ p; edges_ := edges; dynamic_children_ := dynamic_children_ p;
  d_ := d_ p; m_ := m_ p; n_ := n_ p;
  allocated_children_ := allocated_children_ p;
  num_parents_ := num_parents_ p; num_edges_ := num_edges;
  terminal_type_ := terminal_type_ p;
  lower_bound_ := lower_bound_ p; upper_bound_ := upper_bound_ p;
  is_transposition := is_transposition p |}.

Definition set_stats (p : t) (wl d m : F) (n : Z) : t := {|
  static_children_ := static_children_ p;
  wl_ := wl; edges_ := edges_ p; dynamic_children_ := dynamic_children_ p;
  d_ := d; m_ := m; n_ := n;
  allocated_children_ := allocated_children_ p;
  num_parents_ := num_parents_ p; num_edges_ := num_edges_ p;
  terminal_type_ := terminal_type_ p;
  lower_bound_ := lower_bound_ p; upper_bound_ := upper_bound_ p;
  is_transposition := is_transposition p |}.

Definition set_children (p : t) (static : list (Node.t F))
    (dynamic : option (list (Node.t F))) (allocated : Z) : t := {|
  static_children_ := static;
  wl_ := wl_ p; edges_ := edges_ p; dynamic_children_ := dynamic;
  d_ := d_ p; m_ := m_ p; n_ := n_ p;
  allocated_children_ := allocated;
  num_parents_ := num_parents_ p; num_edges_ := num_edges_ p;
  terminal_type_ := terminal_type_ p;
  lower_bound_ := lower_bound_ p; upper_bound_ := upper_bound_ p;
  is_transposition := is_transposition p |}.

Definition set_parents (p : t) (num_parents : Z) (transposition : bool) : t := {|
  static_children_ := static_children_ p;
  wl_ := wl_ p; edges_ := edges_ p; dynamic_children_ := dynamic_children_ p;
  d_ := d_ p; m_ := m_ p; n_ := n_ p;
  allocated_children_ := allocated_children_ p;
  num_parents_ := num_parents; num_edges_ := num_edges_ p;
  terminal_type_ := terminal_type_ p;
  lower_bound_ := lower_bound_ p; upper_bound_ := upper_bound_ p;
  is_transposition := transposition |}.

(** [LowNode(const MoveList& moves)]: init [edges_] with moves from [moves]
    and 0 policy. *)
Definition of_moves (moves : MoveList) : t :=
  set_edges empty (Some (Edge.FromMovelist moves)) (u8 (Z.of_nat (length moves))).

(** [LowNode(const MoveList& moves, uint16_t index)]: also create the first
    child at [index].  The child is constructed in [static_children_[0]];
    reading [edges_[index]] outside the array has no defined result. *)
Definition of_moves_index (moves : MoveList) (index : Z) : option t :=
  let p := of_moves moves in
  edge ← Edge.FromMovelist moves !! Z.to_nat index;
  Some (set_children p
          (<[0%nat := Node.create edge index]> (static_children_ p))
          (dynamic_children_ p) (allocated_children_ p)).

(** [LowNode(const LowNode& p)]: init from another low node, but use it for
    NNEval only. *)
Definition copy (mode : BuildMode) (p : t) : option t :=
  _ ← assert_ mode (non_null (edges_ p));
  es ← edges_ p;
  Some (set_stats (set_edges empty (Some (take (Z.to_nat (num_edges_ p)) es))
                     (num_edges_ p))
          (wl_ p) (d_ p) (m_ p) 0).

Definition SetNNEval (mode : BuildMode) (p : t) (eval : NNEval F) : option t :=
  _ ← assert_ mode (negb (non_null (edges_ p)));
  _ ← assert_ mode (n_ p =? 0);
  Some (set_stats
          (set_edges p (Some (take (Z.to_nat (eval_num_edges eval)) (eval_edges eval)))
             (eval_num_edges eval))
          (eval_q eval) (eval_d eval) (eval_m eval) (n_ p)).

Definition HasChildren (p : t) : bool := 0 <? num_edges_ p.

Definition GetN (p : t) : Z := n_ p.
Definition GetChildrenVisits (p : t) : Z := u32 (n_ p - 1).

Definition GetWL (p : t) : F := wl_ p.
Definition GetD (p : t) : F := d_ p.
Definition GetM (p : t) : F := m_ p.

Definition IsTerminal (p : t) : bool :=
  negb (Terminal_eqb (terminal_type_ p) NonTerminal).
Definition GetBounds (p : t) : Bounds := (lower_bound_ p, upper_bound_ p).
Definition GetTerminalType (p : t) : Terminal := terminal_type_ p.

Definition GetNumEdges (p : t) : Z := num_edges_ p.
Definition GetEdges (p : t) : option (list Edge.t) := edges_ p.

Definition SortEdges (mode : BuildMode) (p : t) : option t :=
  _ ← assert_ mode (non_null (edges_ p));
  _ ← assert_ mode (n_ p =? 0);
  Some (set_edges p ((fun es => Edge.SortEdges es (num_edges_ p)) <$> edges_ p)
          (num_edges_ p)).

(** Add new parent. *)
Definition AddParent (mode : BuildMode) (p : t) : option t :=
  let num_parents := u16 (num_parents_ p + 1) in
  _ ← assert_ mode (0 <? num_parents);
  Some (set_parents p num_parents (is_transposition p || (1 <? num_parents))).

(** Remove parent and its first visit. *)
Definition RemoveParent (mode : BuildMode) (p : t) : option t :=
  _ ← assert_ mode (0 <? num_parents_ p);
  Some (set_parents p (u16 (num_parents_ p - 1)) (is_transposition p)).

Definition GetNumParents (p : t) : Z := num_parents_ p.
Definition IsTransposition (p : t) : bool := is_transposition p.

(** *** Child storage *)

(** The node a pointer designates. *)
Definition deref (p : t) (ptr : NodePtr) : option (Node.t F) :=
  match ptr with
  | InStatic k => static_children_ p !! k
  | InDynamic k => dynamic_children_ p ≫= fun arr => arr !! k
  end.

(** A write through a pointer. *)
Definition store (p : t) (ptr : NodePtr) (nd : Node.t F) : t :=
  match ptr with
  | InStatic k =>
      set_children p (<[k := nd]> (static_children_ p)) (dynamic_children_ p)
        (allocated_children_ p)
  | InDynamic k =>
      set_children p (static_children_ p)
        ((fun arr => <[k := nd]> arr) <$> dynamic_children_ p)
        (allocated_children_ p)
  end.

(** Modelled from the spec: [LowNode::FindPlaceOf] is defined in [node.cc].
    "It locates the storage slot (inline if i < 2, else in the dynamic
    spill)"; a slot of the spill exists once [allocated_children_] covers
    it. *)
Definition FindPlaceOf (p : t) (index : Z) : option NodePtr :=
  if index <? kStaticChildrenArraySize then Some (InStatic (Z.to_nat index))
  else if index <? allocated_children_ p
       then Some (InDynamic (Z.to_nat (index - kStaticChildrenArraySize)))
       else None.

(** Modelled from the spec: [LowNode::GetChildAt] is defined in [node.cc].
    "Returns the MoveNode at edge index i if realized, else null." *)
Definition GetChildAt (p : t) (index : Z) : option NodePtr :=
  place ← FindPlaceOf p index;
  nd ← deref p place;
  if Node.Realized nd then Some place else None.

(** Modelled from the spec: [LowNode::Allocate] is defined in [node.cc].
    The single dynamic array holds the rest of the children, constructed
    but not realized; "allocated_children records how many slots are
    currently backed by memory". *)
Definition Allocate (p : t) : t :=
  set_children p (static_children_ p)
    (Some (replicate (Z.to_nat (num_edges_ p - kStaticChildrenArraySize)) Node.constructed))
    (num_edges_ p).

(** Modelled from the spec: [LowNode::InsertChildAt] is defined in
    [node.cc]; the default [init = true] is taken.  "It locates the storage
    slot, atomically claims it via CAS on index from CONSTRUCTED to
    ASSIGNING, writes the edge copy, and publishes with a release store to
    its final index"; a caller that finds the slot taken returns the same
    pointer once the index is visible.  With no other thread running, a slot
    left in the ASSIGNING state is never published and the call has no
    result, as it has none for an index outside the edges. *)
Definition InsertChildAt (p : t) (index : Z) : option (t * NodePtr) :=
  es ← edges_ p;
  if negb ((0 <=? index) && (index <? num_edges_ p)) then None else
  edge ← es !! Z.to_nat index;
  let p1 :=
    if (index <? kStaticChildrenArraySize) || (index <? allocated_children_ p)
    then p else Allocate p in
  place ← FindPlaceOf p1 index;
  nd ← deref p1 place;
  if Node.index_ nd =? Node.kMagicIndexConstructed
  then Some (store p1 place (Node.assign nd edge index), place)
  else if Node.Realized nd then Some (p1, place)
  else None.

(** Modelled from the spec: [LowNode::FinalizeScoreUpdate] is defined in
    [node.cc].  "finalize_score_update on a PositionNode updates its own
    aggregate statistics identically to a MoveNode"; a low node has no
    [n_in_flight_] field. *)
Definition FinalizeScoreUpdate (p : t) (v d m : F) (multivisit : Z) : t :=
  set_stats p
    (Node.merge (wl_ p) v (n_ p) multivisit)
    (Node.merge (d_ p) d (n_ p) multivisit)
    (Node.merge (m_ p) m (n_ p) multivisit)
    (u32 (n_ p + multivisit)).

(** All slots of the child storage, in index order. *)
Definition slots (p : t) : list (Node.t F) :=
  static_children_ p ++ default [] (dynamic_children_ p).

(** The realized children. *)
Definition children (p : t) : list (Node.t F) :=
  filter (fun nd => Node.Realized nd = true) (slots p).

(** The sum of [n] over the realized children. *)
Definition children_n (p : t) : Z :=
  foldr Z.add 0 (Node.n_ <$> children p).

End WithFloat.

Arguments t F : clear implicits.

End LowNode.


(** ** EdgeAndNode: the pair and its proxy functions *)

Module EdgeAndNode.

Section WithFloat.
Context {F : Type} {FO : FloatOps F}.

(** [edge_] is null when the whole pair is "null"; [node_] is null when the
    edge does not yet have a node.  The pointees are kept by value. *)
Record t : Type := Make {
  edge_ : option Edge.t;
  node_ : option (Node.t F)
}.

Definition HasNode (en : t) : bool := non_null (node_ en).

Definition GetQ (en : t) (default_q draw_score : F) : F :=
  match node_ en with
  | Some nd => if 0 <? Node.GetN nd then Node.GetQ nd draw_score else default_q
  | None => default_q
  end.

Definition GetWL (en : t) (default_wl : F) : F :=
  match node_ en with
  | Some nd => if 0 <? Node.GetN nd then Node.GetWL nd else default_wl
  | None => default_wl
  end.

Definition GetD (en : t) (default_d : F) : F :=
  match node_ en with
  | Some nd => if 0 <? Node.GetN nd then Node.GetD nd else default_d
  | None => default_d
  end.

Definition GetM (en : t) (default_m : F) : F :=
  match node_ en with
  | Some nd => if 0 <? Node.GetN nd then Node.GetM nd else default_m
  | None => default_m
  end.

(** N-related getters, from Node (if exists). *)
Definition GetN (en : t) : Z :=
  match node_ en with Some nd => Node.GetN nd | None => 0 end.
Definition GetNStarted (en : t) : Z :=
  match node_ en with Some nd => Node.GetNStarted nd | None => 0 end.
Definition GetNInFlight (en : t) : Z :=
  match node_ en with Some nd => Node.GetNInFlight nd | None => 0 end.

(** Whether the node is known to be terminal. *)
Definition IsTerminal (en : t) : bool :=
  match node_ en with Some nd => Node.IsTerminal nd | None => false end.
Definition IsTbTerminal (en : t) : bool :=
  match node_ en with Some nd => Node.IsTbTerminal nd | None => false end.
Definition GetBounds (en : t) : Bounds :=
  match node_ en with
  | Some nd => Node.GetBounds nd
  | None => (BLACK_WON, WHITE_WON)
  end.

End WithFloat.

Arguments t F : clear implicits.

End EdgeAndNode.

(** ** VisitedNode_Iterator: the children with N > 0 *)

Module VisitedNode_Iterator.

Section WithFloat.
Context {F : Type} {FO : FloatOps F}.

(** The parent is not written while it is iterated (the functions "must be
    externally synchronized"), so the iterator carries it by value. *)
Record t : Type := Make {
  parent_node_ : option (LowNode.t F);
  node_ptr_ : option NodePtr;
  current_idx_ : Z;                 (* uint16_t *)
  total_count_ : Z                  (* uint16_t *)
}.

(** The "end()" iterator. *)
Definition end_ : t :=
  {| parent_node_ := None; node_ptr_ := None; current_idx_ := 0; total_count_ := 0 |}.

(** The [do ... while] loop of [operator++], started after index [idx]; it
    returns the final [node_ptr_] and [current_idx_].  [fuel] bounds the
    number of rounds; a pointer that designates no slot gives no result. *)
Fixpoint advance (fuel : nat) (p : LowNode.t F) (idx : Z) : option (option NodePtr * Z) :=
  match fuel with
  | O => None
  | S fuel' =>
      let idx' := u16 (idx + 1) in
      match LowNode.GetChildAt p idx' with
      | None => Some (None, idx')
      | Some ptr =>
          nd ← LowNode.deref p ptr;
          if (Node.GetN nd =? 0) && (Node.GetNInFlight nd =? 0) then Some (None, idx')
          else if Node.GetN nd =? 0 then advance fuel' p idx'
          else Some (Some ptr, idx')
      end
  end.

(** A round of the loop moves to the next slot, so one more round than
    there are slots is enough. *)
Definition rounds (p : LowNode.t F) : nat := S (length (LowNode.slots p)).

(** [operator++] *)
Definition next (mode : BuildMode) (it : t) : option t :=
  _ ← assert_ mode (non_null (parent_node_ it));
  p ← parent_node_ it;
  '(node_ptr, idx) ← advance (rounds p) p (current_idx_ it);
  Some {| parent_node_ := parent_node_ it; node_ptr_ := node_ptr;
          current_idx_ := idx; total_count_ := total_count_ it |}.

(** The "begin()" iterator, [VisitedNode_Iterator(LowNode* parent_node)]. *)
Definition begin (mode : BuildMode) (parent_node : option (LowNode.t F)) : option t :=
  match parent_node with
  | None =>
      Some {| parent_node_ := None; node_ptr_ := None;
              current_idx_ := 0; total_count_ := 0 |}
  | Some p =>
      let it := {| parent_node_ := Some p; node_ptr_ := LowNode.GetChildAt p 0;
                   current_idx_ := 0; total_count_ := LowNode.GetNumEdges p |} in
      match node_ptr_ it with
      | None => Some it
      | Some ptr =>
          nd ← LowNode.deref p ptr;
          if Node.GetN nd =? 0 then next mode it else Some it
      end
  end.

(** [operator*] *)
Definition get (it : t) : option NodePtr := node_ptr_ it.

(** [for (auto* node : range)]: the nodes met from [it] until the iterator
    compares equal to "end()". *)
Fixpoint range_from (fuel : nat) (mode : BuildMode) (it : t) : option (list NodePtr) :=
  match get it with
  | None => Some []
  | Some ptr =>
      match fuel with
      | O => None
      | S fuel' =>
          it' ← next mode it;
          rest ← range_from fuel' mode it';
          Some (ptr :: rest)
      end
  end.

(** The nodes a loop over [VisitedNodes()] of a node with low node [p]
    meets. *)
Definition VisitedNodes (mode : BuildMode) (p : LowNode.t F) : option (list NodePtr) :=
  it ← begin mode (Some p);
  range_from (rounds p) mode it.

End WithFloat.

Arguments t F : clear implicits.

End VisitedNode_Iterator.


(** ** Two threads starting a score update on one node *)

Module TwoThreads.

Section WithFloat.
Context {F : Type} {FO : FloatOps F}.

(** Both threads are inside [TryStartScoreUpdate] of the same node; a step
    of the system is one atomic action of one of them. *)
Record state : Type := Make {
  shared : Node.t F;
  thread1 : Node.call;
  thread2 : Node.call
}.

Definition running (c : Node.call) : bool :=
  match c with Node.Returned _ => false | _ => true end.

Definition run1 (s : state) : state :=
  let '(nd, c) := Node.try_start_step (shared s) (thread1 s) in
  {| shared := nd; thread1 := c; thread2 := thread2 s |}.

Definition run2 (s : state) : state :=
  let '(nd, c) := Node.try_start_step (shared s) (thread2 s) in
  {| shared := nd; thread1 := thread1 s; thread2 := c |}.

Inductive step : state -> state -> Prop :=
| step_thread1 s : running (thread1 s) = true -> step s (run1 s)
| step_thread2 s : running (thread2 s) = true -> step s (run2 s).

Definition initial (nd : Node.t F) : state :=
  {| shared := nd; thread1 := Node.AtLoad; thread2 := Node.AtLoad |}.

(** A schedule names the thread that moves next; a thread that has returned
    does not move. *)
Fixpoint schedule (sched : list bool) (s : state) : state :=
  match sched with
  | [] => s
  | first :: rest =>
      schedule rest
        (if first then (if running (thread1 s) then run1 s else s)
         else (if running (thread2 s) then run2 s else s))
  end.

End WithFloat.

Arguments state F : clear implicits.

End TwoThreads.

(** ** The life of a position under search *)

Module Search.

Section WithFloat.
Context {F : Type} {FO : FloatOps F}.

(** Modelled from the spec: the search loop is not part of this header.
    What it does to a position [p] once it exists: it realizes children,
    and a descent through a realized child starts a score update on it and
    ends by cancelling it or by finalizing it, in which case the value is
    merged into the child ([v], [d], [m]) and into the position ([pv],
    [pd], [pm]) with the same multiplicity. *)
Inductive op : Type :=
| Realize (index : Z)
| Start (ptr : NodePtr)
| Cancel (ptr : NodePtr) (multivisit : Z)
| Backup (ptr : NodePtr) (v d m pv pd pm : F) (multivisit : Z).

(** [f] applied to the realized child behind [ptr]. *)
Definition on_child (p : LowNode.t F) (ptr : NodePtr)
    (f : Node.t F -> option (Node.t F)) : option (LowNode.t F) :=
  nd ← LowNode.deref p ptr;
  if Node.Realized nd then nd' ← f nd; Some (LowNode.store p ptr nd') else None.

Definition apply (p : LowNode.t F) (o : op) : option (LowNode.t F) :=
  match o with
  | Realize index => fst <$> LowNode.InsertChildAt p index
  | Start ptr =>
      on_child p ptr (fun nd =>
        let '(ok, nd') := Node.TryStartScoreUpdate nd in
        if ok then Some nd' else None)
  | Cancel ptr k =>
      on_child p ptr (fun nd => Some (Node.CancelScoreUpdate nd k))
  | Backup ptr v d m pv pd pm k =>
      p' ← on_child p ptr (fun nd => Some (Node.FinalizeScoreUpdate nd v d m k));
      Some (LowNode.FinalizeScoreUpdate p' pv pd pm k)
  end.

Fixpoint run (p : LowNode.t F) (ops : list op) : option (LowNode.t F) :=
  match ops with
  | [] => Some p
  | o :: rest => p' ← apply p o; run p' rest
  end.

(** Modelled from the spec: the visit that creates the position ("the +1
    accounts for the visit that first created the position"); its own
    evaluation is merged into it, once. *)
Definition first_visit (p : LowNode.t F) (v d m : F) : LowNode.t F :=
  LowNode.FinalizeScoreUpdate p v d m 1.

End WithFloat.

Arguments op F : clear implicits.

End Search.

(** ** Predicates on low nodes *)

Section Predicates.
Context {F : Type} {FO : FloatOps F}.

(** The shape the constructors give the child storage and the edges: two
    inline slots; no spill, or a spill for all remaining edges; one edge per
    counted edge. *)
Definition well_formed (p : LowNode.t F) : Prop :=
  length (LowNode.static_children_ p) = 2%nat /\
  0 <= LowNode.num_edges_ p < 2 ^ 8 /\
  (exists es, LowNode.edges_ p = Some es /\
              Z.of_nat (length es) = LowNode.num_edges_ p) /\
  match LowNode.dynamic_children_ p with
  | None => LowNode.allocated_children_ p = 2
  | Some arr =>
      LowNode.allocated_children_ p = LowNode.num_edges_ p /\
      2 + Z.of_nat (length arr) = LowNode.num_edges_ p
  end.

(** Slot [i] is either untouched or holds the child of edge [i]: the index
    of a realized node is its slot and its edge is the edge at that index. *)
Definition slot_in_place (es : list Edge.t) (i : nat) (nd : Node.t F) : Prop :=
  if Node.Realized nd
  then Node.index_ nd = Z.of_nat i /\ es !! i = Some (Node.edge_ nd)
  else Node.index_ nd = Node.kMagicIndexConstructed.

Definition in_place (p : LowNode.t F) : Prop :=
  forall i nd, LowNode.slots p !! i = Some nd ->
    slot_in_place (default [] (LowNode.edges_ p)) i nd.

(** The position of a pointer's slot among all slots. *)
Definition slot_of (ptr : NodePtr) : nat :=
  match ptr with
  | InStatic k => k
  | InDynamic k => 2 + k
  end.

(** What a slot adds to the visits of the children: its [n] when it holds a
    realized node. *)
Definition weight (nd : Node.t F) : Z :=
  if Node.Realized nd then Node.n_ nd else 0.

Definition total_weight (l : list (Node.t F)) : Z :=
  foldr (fun nd acc => weight nd + acc) 0 l.

(** A slot that holds no realized node holds no visits either. *)
Definition idle_slots_empty (p : LowNode.t F) : Prop :=
  Forall (fun nd => Node.Realized nd = false -> Node.n_ nd = 0) (LowNode.slots p).

(** The state of a position under search: the storage is well formed, only
    realized nodes carry visits, and the position counts its own first visit
    and the visits of its children. *)
Definition searched (p : LowNode.t F) : Prop :=
  well_formed p /\
  idle_slots_empty p /\
  Forall (fun nd => 0 <= Node.n_ nd) (LowNode.slots p) /\
  LowNode.n_ p = u32 (1 + LowNode.children_n p).

(** No visit was finalized in the position or below it. *)
Definition unvisited (p : LowNode.t F) : Prop :=
  LowNode.n_ p = 0 /\ Forall (fun nd => Node.n_ nd = 0) (LowNode.slots p).

(** *** What the visited-children iterator sees *)

(** The child at edge index [i], with the node behind the pointer. *)
Definition view (p : LowNode.t F) (i : Z) : option (NodePtr * Node.t F) :=
  ptr ← LowNode.GetChildAt p i;
  nd ← LowNode.deref p ptr;
  Some (ptr, nd).

Definition views (p : LowNode.t F) : list (option (NodePtr * Node.t F)) :=
  (fun i => view p (Z.of_nat i)) <$> seq 0 (length (LowNode.slots p)).

(** The iteration ends at an index that has no realized child, and at an
    index other than 0 whose child has neither visits nor visits in
    flight. *)
Definition ends_at (i : nat) (v : option (NodePtr * Node.t F)) : bool :=
  match v with
  | None => true
  | Some (_, nd) =>
      negb (i =? 0)%nat && (Node.n_ nd =? 0) && (Node.n_in_flight_ nd =? 0)
  end.

(** The first index from [i] on at which the iteration ends. *)
Fixpoint first_end (i : nat) (vs : list (option (NodePtr * Node.t F))) : nat :=
  match vs with
  | [] => i
  | v :: rest => if ends_at i v then i else first_end (S i) rest
  end.

(** The loop of [operator++] on the views from index [i] on: the node it
    stops at, if any, and the index it stops at. *)
Fixpoint next_visited (i : nat) (vs : list (option (NodePtr * Node.t F)))
    : option NodePtr * nat :=
  match vs with
  | [] => (None, i)
  | None :: _ => (None, i)
  | Some (ptr, nd) :: rest =>
      if (Node.n_ nd =? 0) && (Node.n_in_flight_ nd =? 0) then (None, i)
      else if Node.n_ nd =? 0 then next_visited (S i) rest
      else (Some ptr, i)
  end.

(** All nodes the repeated loop meets on the views after index 0. *)
Fixpoint visited_after (vs : list (option (NodePtr * Node.t F))) : list NodePtr :=
  match vs with
  | [] => []
  | None :: _ => []
  | Some (ptr, nd) :: rest =>
      if (Node.n_ nd =? 0) && (Node.n_in_flight_ nd =? 0) then []
      else if Node.n_ nd =? 0 then visited_after rest
      else ptr :: visited_after rest
  end.

(** The children with visits among the views. *)
Definition visited_of (vs : list (option (NodePtr * Node.t F))) : list NodePtr :=
  omap (fun v => match v with
                 | Some (ptr, nd) => if Node.n_ nd =? 0 then None else Some ptr
                 | None => None
                 end) vs.

(** What a loop over the visited children meets: the children with visits
    before the index at which the iteration ends. *)
Definition visited_prefix (p : LowNode.t F) : list NodePtr :=
  visited_of (take (first_end 0 (views p)) (views p)).

(** Every child with visits sits before the index at which the iteration
    ends: the order in which a search over sorted edges starts visits. *)
Definition visits_form_prefix (p : LowNode.t F) : Prop :=
  visited_of (drop (first_end 0 (views p)) (views p)) = [].

(** The forbidden state: never visited and one visit in flight. *)
Definition being_expanded (nd : Node.t F) : Prop :=
  Node.n_ nd = 0 /\ Node.n_in_flight_ nd = 1.

(** What the two threads can be doing while the node has no visit: nobody
    has succeeded and the counter is 0, or exactly one thread has succeeded,
    the counter is 1, and the other thread has not succeeded. *)
Definition S2_invariant (s : TwoThreads.state F) : Prop :=
  Node.n_ (TwoThreads.shared s) = 0 /\
  let waiting c := c = Node.AtLoad \/ c = Node.AtCas 0 in
  let lost c := waiting c \/ c = Node.Returned false in
  (Node.n_in_flight_ (TwoThreads.shared s) = 0 /\
     waiting (TwoThreads.thread1 s) /\ waiting (TwoThreads.thread2 s)) \/
  (Node.n_in_flight_ (TwoThreads.shared s) = 1 /\
     ((TwoThreads.thread1 s = Node.Returned true /\ lost (TwoThreads.thread2 s)) \/
      (TwoThreads.thread2 s = Node.Returned true /\ lost (TwoThreads.thread1 s)))).

End Predicates.

(** ** Sequences of parent updates *)

Inductive parent_op : Type := AddParentOp | RemoveParentOp.

Section ParentOps.
Context {F : Type} {FO : FloatOps F}.

Definition apply_parent_op (mode : BuildMode) (p : LowNode.t F) (o : parent_op)
    : option (LowNode.t F) :=
  match o with
  | AddParentOp => LowNode.AddParent mode p
  | RemoveParentOp => LowNode.RemoveParent mode p
  end.

Fixpoint run_parent_ops (mode : BuildMode) (p : LowNode.t F) (ops : list parent_op)
    : option (LowNode.t F) :=
  match ops with
  | [] => Some p
  | o :: rest => p' ← apply_parent_op mode p o; run_parent_ops mode p' rest
  end.

End ParentOps.

(** ** The literal scenarios *)

(** Scenario S1: a position with three edges and priors 0.6, 0.3, 0.1; the
    child at index 1 is realized, a score update is started on it, and the
    visit is finalized with [v = 0.2], [d = 0], [m = 10] and multiplicity
    1. *)
Definition S1_edges : list Edge.t :=
  [Edge.SetP (Edge.Make 100 0) 0x3F19999A;     (* 0.6f *)
   Edge.SetP (Edge.Make 200 0) 0x3E99999A;     (* 0.3f *)
   Edge.SetP (Edge.Make 300 0) 0x3DCCCCCD].    (* 0.1f *)

Definition S1_position : LowNode.t Q :=
  default LowNode.empty
    (LowNode.SetNNEval Debug LowNode.empty
       {| eval_edges := S1_edges; eval_q := 0%Q; eval_d := 0%Q; eval_m := 0%Q;
          eval_num_edges := 3 |}).

Definition S1_result : option (LowNode.t Q * NodePtr) :=
  '(p, ptr) ← LowNode.InsertChildAt S1_position 1;
  p1 ← Search.apply p (Search.Start ptr);
  p2 ← Search.apply p1 (Search.Backup ptr (1 # 5) 0 10 (1 # 5) 0 10 1)%Q;
  Some (p2, ptr).

(** The position after that visit: child 1 has a visit, child 0 is not
    realized. *)
Definition gap_position : LowNode.t Q :=
  default S1_position (fst <$> S1_result).

(** The position after its own first visit and the same descent. *)
Definition S1_searched : option (LowNode.t Q) :=
  Search.run (Search.first_visit S1_position (1 # 5) 0 10)%Q
    [Search.Realize 1; Search.Start (InStatic 1);
     Search.Backup (InStatic 1) (1 # 5) 0 10 (1 # 5) 0 10 1]%Q.

(** Children 0 and 1 are realized and only child 1 is visited. *)
Definition idle_first_position : LowNode.t Q :=
  default S1_position
    (Search.run S1_position
       [Search.Realize 0; Search.Realize 1; Search.Start (InStatic 1);
        Search.Backup (InStatic 1) (1 # 5) 0 10 (1 # 5) 0 10 1]%Q).

(** Children 0 and 1 are realized in that order and child 0 is visited. *)
Definition prefix_position : LowNode.t Q :=
  default S1_position
    (Search.run (Search.first_visit S1_position (1 # 5) 0 10)%Q
       [Search.Realize 0; Search.Start (InStatic 0);
        Search.Backup (InStatic 0) (1 # 5) 0 10 (1 # 5) 0 10 1;
        Search.Realize 1]%Q).

(** Priors in descending order, as [SortEdges] leaves them. *)
Fixpoint is_descending (es : list Edge.t) : bool :=
  match es with
  | a :: (b :: _) as rest => (Edge.p_ b <=? Edge.p_ a) && is_descending rest
  | _ => true
  end.

(** The same position built by the constructor that creates the child at
    index 1 itself. *)
Definition eager_position : option (LowNode.t Q) :=
  LowNode.of_moves_index [100; 200; 300] 1.

(** Scenario S3: a position gets a first and a second parent, then loses
    both. *)
Definition S3_position : LowNode.t Q := LowNode.of_moves [100; 200].

Definition S3_one_parent : LowNode.t Q :=
  default S3_position (LowNode.AddParent Debug S3_position).

Definition S3_two_parents : LowNode.t Q :=
  default S3_one_parent (LowNode.AddParent Debug S3_one_parent).

Definition S3_no_parent : LowNode.t Q :=
  default S3_two_parents
    (run_parent_ops Debug S3_two_parents [RemoveParentOp; RemoveParentOp]).

(** ** Running sums and the layout of the child arrays *)

(** [size_t] on the 64-bit platforms the header lays its fields out for. *)
Definition u64 (x : Z) : Z := x mod 2 ^ 64.

(** [RunningSumsBefore(init, vals)] at [T = size_t]: the sum is stored
    before the next value is added, and once more after the loop. *)
Fixpoint RunningSumsBefore (sum : Z) (vals : list Z) : list Z :=
  match vals with
  | [] => [sum]
  | v :: rest => sum :: RunningSumsBefore (u64 (sum + v)) rest
  end.

(** [RunningSumsAfter(init, vals)] at [T = size_t]: the sum is stored after
    the next value was added. *)
Fixpoint RunningSumsAfter (sum : Z) (vals : list Z) : list Z :=
  match vals with
  | [] => []
  | v :: rest => u64 (sum + v) :: RunningSumsAfter (u64 (sum + v)) rest
  end.

(** Sizes of the dynamically allocated arrays but the last. *)
Definition kDynamicChildrenArraySizes : list Z := [].
(** Starts of the dynamically allocated arrays. *)
Definition kDynamicChildrenArrayStarts : list Z :=
  RunningSumsBefore LowNode.kStaticChildrenArraySize kDynamicChildrenArraySizes.
(** Ends of the dynamically allocated arrays but the last. *)
Definition kDynamicChildrenArrayEnds : list Z :=
  RunningSumsAfter LowNode.kStaticChildrenArraySize kDynamicChildrenArraySizes.

Definition sum_list (vals : list Z) : Z := foldr Z.add 0 vals.

(** ** Edge_Iterator: all edges with their nodes *)

Module Edge_Iterator.

Section WithFloat.
Context {F : Type} {FO : FloatOps F}.

(** The [EdgeAndNode] part holds pointers: [edge_] into the edge array of
    the parent, kept as the offset from its start, and [node_] into its
    child storage.  The parent is carried by value; [GetOrSpawnNode], the
    one function that writes to it, returns the iterator with the parent as
    written. *)
Record t : Type := Make {
  edge_ : option nat;
  node_ : option NodePtr;
  parent_node_ : option (LowNode.t F);
  current_idx_ : Z;                 (* uint16_t *)
  total_count_ : Z                  (* uint16_t *)
}.

(** The "end()" iterator. *)
Definition end_ : t :=
  {| edge_ := None; node_ := None; parent_node_ := None;
     current_idx_ := 0; total_count_ := 0 |}.

(** The "begin()" iterator, [Edge_Iterator(LowNode* parent_node)]. *)
Definition begin (parent_node : option (LowNode.t F)) : t :=
  match parent_node with
  | Some p =>
      if non_null (LowNode.GetEdges p)
      then {| edge_ := Some 0%nat; node_ := LowNode.GetChildAt p 0;
              parent_node_ := parent_node;
              current_idx_ := 0; total_count_ := LowNode.GetNumEdges p |}
      else {| edge_ := None; node_ := None; parent_node_ := parent_node;
              current_idx_ := 0; total_count_ := 0 |}
  | None =>
      {| edge_ := None; node_ := None; parent_node_ := None;
         current_idx_ := 0; total_count_ := 0 |}
  end.

(** [explicit operator bool], inherited from [EdgeAndNode]. *)
Definition to_bool (it : t) : bool := non_null (edge_ it).

(** [operator==], inherited from [EdgeAndNode]: the edge pointers are
    compared, nothing else. *)
Definition eqb (a b : t) : bool := bool_decide (edge_ a = edge_ b).

(** [Reset()], inherited from [EdgeAndNode]. *)
Definition Reset (it : t) : t :=
  {| edge_ := None; node_ := node_ it; parent_node_ := parent_node_ it;
     current_idx_ := current_idx_ it; total_count_ := total_count_ it |}.

Definition HasNode (it : t) : bool := non_null (node_ it).

(** [operator++].  Stepping a null edge pointer, or reading the child of a
    null parent, has no defined result. *)
Definition next (mode : BuildMode) (it : t) : option t :=
  _ ← assert_ mode (non_null (parent_node_ it));
  let idx := u16 (current_idx_ it + 1) in
  if idx =? total_count_ it
  then Some {| edge_ := None; node_ := node_ it; parent_node_ := parent_node_ it;
               current_idx_ := idx; total_count_ := total_count_ it |}
  else
    e ← edge_ it;
    p ← parent_node_ it;
    Some {| edge_ := Some (S e); node_ := LowNode.GetChildAt p idx;
            parent_node_ := parent_node_ it;
            current_idx_ := idx; total_count_ := total_count_ it |}.

(** [n] times [operator++]. *)
Fixpoint next_n (mode : BuildMode) (n : nat) (it : t) : option t :=
  match n with
  | O => Some it
  | S n' => it' ← next mode it; next_n mode n' it'
  end.

(** [GetOrSpawnNode()]: the node and the iterator after the call. *)
Definition GetOrSpawnNode (mode : BuildMode) (it : t) : option (t * NodePtr) :=
  _ ← assert_ mode (non_null (parent_node_ it));
  match node_ it with
  | Some ptr => Some (it, ptr)
  | None =>
      p ← parent_node_ it;
      '(p1, ptr) ← LowNode.InsertChildAt p (current_idx_ it);
      Some ({| edge_ := edge_ it; node_ := Some ptr; parent_node_ := Some p1;
               current_idx_ := current_idx_ it; total_count_ := total_count_ it |},
            ptr)
  end.

(** The pair sliced off the iterator, with the pointees read. *)
Definition pair_of (it : t) : EdgeAndNode.t F :=
  {| EdgeAndNode.edge_ :=
       e ← edge_ it; p ← parent_node_ it; es ← LowNode.edges_ p; es !! e;
     EdgeAndNode.node_ :=
       ptr ← node_ it; p ← parent_node_ it; LowNode.deref p ptr |}.

(** [for (auto& edge : range)]: the edge offset and node pointer of every
    element met from [it] until the iterator compares equal to "end()". *)
Fixpoint range_from (fuel : nat) (mode : BuildMode) (it : t)
    : option (list (nat * option NodePtr)) :=
  match edge_ it with
  | None => Some []
  | Some e =>
      match fuel with
      | O => None
      | S fuel' =>
          it' ← next mode it;
          rest ← range_from fuel' mode it';
          Some ((e, node_ it) :: rest)
      end
  end.

(** [current_idx_] is a [uint16_t]: after [2^16] increments every index has
    been compared with [total_count_]. *)
Definition rounds : nat := Z.to_nat (2 ^ 16).

(** The elements a loop over [Edges()] of a node with low node
    [parent_node] meets. *)
Definition Edges (mode : BuildMode) (parent_node : option (LowNode.t F))
    : option (list (nat * option NodePtr)) :=
  range_from rounds mode (begin parent_node).

End WithFloat.

Arguments t F : clear implicits.

End Edge_Iterator.

(** ** More scenarios *)

(** A position that was evaluated with no edge: the edge array is
    allocated and empty. *)
Definition no_edge_position : LowNode.t Q :=
  default LowNode.empty
    (LowNode.SetNNEval Debug LowNode.empty
       {| eval_edges := []; eval_q := 0%Q; eval_d := 0%Q; eval_m := 0%Q;
          eval_num_edges := 0 |}).

(** The number of [AddParent] calls minus the number of [RemoveParent]
    calls. *)
Definition parents_delta (ops : list parent_op) : Z :=
  foldr (fun o acc => match o with AddParentOp => 1 | RemoveParentOp => -1 end + acc)
    0 ops.

Section MorePredicates.
Context {F : Type} {FO : FloatOps F}.

(** What a loop over the edges of [p] is expected to meet: every edge
    index below [num_edges_], with the realized child at that index. *)
Definition edges_with_children (p : LowNode.t F) : list (nat * option NodePtr) :=
  (fun i => (i, LowNode.GetChildAt p (Z.of_nat i)))
    <$> seq 0 (Z.to_nat (LowNode.num_edges_ p)).

(** The iterator over the edges of [p] when it stands at edge [k]. *)
Definition at_edge (p : LowNode.t F) (k : nat) : Edge_Iterator.t F :=
  {| Edge_Iterator.edge_ := Some k;
     Edge_Iterator.node_ := LowNode.GetChildAt p (Z.of_nat k);
     Edge_Iterator.parent_node_ := Some p;
     Edge_Iterator.current_idx_ := Z.of_nat k;
     Edge_Iterator.total_count_ := LowNode.GetNumEdges p |}.

End MorePredicates.

(** * Properties *)

(** ** Fixed-width integers *)

Lemma u32_range x : 0 <= u32 x < 2 ^ 32.
Proof. unfold u32. apply Z.mod_pos_bound. lia. Qed.

Lemma u16_range x : 0 <= u16 x < 2 ^ 16.
Proof. unfold u16. apply Z.mod_pos_bound. lia. Qed.

Lemma u32_small x : 0 <= x < 2 ^ 32 -> u32 x = x.
Proof. intros H. unfold u32. now apply Z.mod_small. Qed.

Lemma u16_small x : 0 <= x < 2 ^ 16 -> u16 x = x.
Proof. intros H. unfold u16. now apply Z.mod_small. Qed.

Lemma u32_add_l x y : u32 (u32 x + y) = u32 (x + y).
Proof. unfold u32. now rewrite Zplus_mod_idemp_l. Qed.

Lemma u32_add_r x y : u32 (x + u32 y) = u32 (x + y).
Proof. unfold u32. now rewrite Zplus_mod_idemp_r. Qed.

(** ** GetChildrenVisits on a position without a finalized visit *)

(** C10: for a position with [n == 0], [GetChildrenVisits()] computes
    [n - 1] in unsigned 32-bit arithmetic and returns [2^32 - 1], not 0. *)
Theorem GetChildrenVisits_wraps {F : Type} (p : LowNode.t F) :
  LowNode.GetN p = 0 ->
  LowNode.GetChildrenVisits p = 2 ^ 32 - 1 /\ LowNode.GetChildrenVisits p <> 0.
Proof.
  unfold LowNode.GetN, LowNode.GetChildrenVisits. intros ->.
  split; [reflexivity | discriminate].
Qed.

Lemma of_moves_n {F : Type} {FO : FloatOps F} (moves : MoveList) :
  LowNode.GetN (LowNode.of_moves (F := F) moves) = 0.
Proof. reflexivity. Qed.

Lemma of_moves_index_n {F : Type} {FO : FloatOps F} (moves : MoveList) index p :
  LowNode.of_moves_index (F := F) moves index = Some p -> LowNode.GetN p = 0.
Proof.
  unfold LowNode.of_moves_index. intros H.
  destruct (Edge.FromMovelist moves !! Z.to_nat index); simplify_eq/=. reflexivity.
Qed.

Lemma GetChildrenVisits_wraps_fresh :
  LowNode.GetN S1_position = 0 /\
  LowNode.GetChildrenVisits S1_position = 2 ^ 32 - 1 /\
  LowNode.GetChildrenVisits S1_position <> 0.
Proof.
  split; [reflexivity |].
  apply (GetChildrenVisits_wraps S1_position). reflexivity.
Defined.

(** ** The proxies of EdgeAndNode *)

Section Proxies.
Context {F : Type} {FO : FloatOps F}.

(** C9: the value proxies [GetQ], [GetWL], [GetD] and [GetM] return the
    caller's default when the pair has no node and also when its node has
    [n == 0]; with no node, [GetN], [GetNStarted] and [GetNInFlight] return
    0 and [GetBounds] returns the widest interval. *)
Theorem EdgeAndNode_defaults (edge : option Edge.t) (nd : Node.t F)
    (default_q draw_score default_wl default_d default_m : F) :
  Node.GetN nd = 0 ->
  let absent := {| EdgeAndNode.edge_ := edge; EdgeAndNode.node_ := None |} in
  let unvisited := {| EdgeAndNode.edge_ := edge; EdgeAndNode.node_ := Some nd |} in
  (EdgeAndNode.GetQ absent default_q draw_score = default_q /\
   EdgeAndNode.GetWL absent default_wl = default_wl /\
   EdgeAndNode.GetD absent default_d = default_d /\
   EdgeAndNode.GetM absent default_m = default_m) /\
  (EdgeAndNode.GetQ unvisited default_q draw_score = default_q /\
   EdgeAndNode.GetWL unvisited default_wl = default_wl /\
   EdgeAndNode.GetD unvisited default_d = default_d /\
   EdgeAndNode.GetM unvisited default_m = default_m) /\
  (EdgeAndNode.GetN absent = 0 /\
   EdgeAndNode.GetNStarted absent = 0 /\
   EdgeAndNode.GetNInFlight absent = 0 /\
   EdgeAndNode.GetBounds absent = (BLACK_WON, WHITE_WON)).
Proof.
  intros Hn. cbn.
  unfold EdgeAndNode.GetQ, EdgeAndNode.GetWL, EdgeAndNode.GetD, EdgeAndNode.GetM.
  cbn. rewrite Hn. cbn. repeat split.
Qed.

(** A node with visits is read through: the default is not used. *)
Lemma EdgeAndNode_visited (edge : option Edge.t) (nd : Node.t F)
    (default_q draw_score default_wl : F) :
  0 < Node.GetN nd ->
  let en := {| EdgeAndNode.edge_ := edge; EdgeAndNode.node_ := Some nd |} in
  EdgeAndNode.GetQ en default_q draw_score = Node.GetQ nd draw_score /\
  EdgeAndNode.GetWL en default_wl = Node.GetWL nd.
Proof.
  intros Hn. cbn. unfold EdgeAndNode.GetQ, EdgeAndNode.GetWL. cbn.
  apply Z.ltb_lt in Hn. rewrite Hn. split; reflexivity.
Qed.

End Proxies.

Lemma EdgeAndNode_defaults_constructed :
  Node.GetN (Node.constructed (F := Q)) = 0 /\
  EdgeAndNode.GetQ {| EdgeAndNode.edge_ := None;
                      EdgeAndNode.node_ := Some (Node.constructed (F := Q)) |}
    (1 # 2) (1 # 4) = (1 # 2)%Q.
Proof.
  split; [reflexivity |].
  apply (EdgeAndNode_defaults None (Node.constructed (F := Q))
           (1 # 2)%Q (1 # 4)%Q 0%Q 0%Q 0%Q).
  reflexivity.
Defined.

(** ** The transposition latch *)

Section Latch.
Context {F : Type} {FO : FloatOps F}.

Lemma AddParent_keeps_latch mode (p p' : LowNode.t F) :
  LowNode.AddParent mode p = Some p' ->
  LowNode.is_transposition p = true -> LowNode.is_transposition p' = true.
Proof.
  unfold LowNode.AddParent. intros H Ht.
  destruct (assert_ mode _); simplify_eq/=. now rewrite Ht.
Qed.

Lemma RemoveParent_keeps_latch mode (p p' : LowNode.t F) :
  LowNode.RemoveParent mode p = Some p' ->
  LowNode.is_transposition p' = LowNode.is_transposition p.
Proof.
  unfold LowNode.RemoveParent. intros H.
  destruct (assert_ mode _); simplify_eq/=. reflexivity.
Qed.

Lemma run_parent_ops_keeps_latch mode ops : forall (p p' : LowNode.t F),
  run_parent_ops mode p ops = Some p' ->
  LowNode.is_transposition p = true -> LowNode.is_transposition p' = true.
Proof.
  induction ops as [| o ops IH]; intros p p' Hrun Ht; simpl in Hrun.
  - now simplify_eq.
  - destruct (apply_parent_op mode p o) as [q |] eqn:Hop; simplify_eq/=.
    apply (IH q p' Hrun). destruct o; simpl in Hop.
    + eapply AddParent_keeps_latch; eassumption.
    + erewrite RemoveParent_keeps_latch; eassumption.
Qed.

(** Adding a parent to a position that has one makes the count reach 2. *)
Lemma AddParent_second mode (p : LowNode.t F) :
  1 <= LowNode.num_parents_ p < 2 ^ 16 - 1 ->
  exists p', LowNode.AddParent mode p = Some p' /\
             LowNode.num_parents_ p' = LowNode.num_parents_ p + 1.
Proof.
  intros Hr. unfold LowNode.AddParent.
  rewrite u16_small by lia.
  assert (H0 : (0 <? LowNode.num_parents_ p + 1) = true) by (apply Z.ltb_lt; lia).
  rewrite H0. destruct mode; cbn; eexists; split; reflexivity.
Qed.

(** C5: once [num_parents] has reached 2 (a parent was added and the count
    is then at least 2), [is_transposition] is true, and it is still true
    after every further sequence of [AddParent] and [RemoveParent] calls,
    whatever the count has become. *)
Theorem transposition_latch mode (p p1 p2 : LowNode.t F) (ops : list parent_op) :
  LowNode.AddParent mode p = Some p1 ->
  2 <= LowNode.GetNumParents p1 ->
  run_parent_ops mode p1 ops = Some p2 ->
  LowNode.IsTransposition p1 = true /\ LowNode.IsTransposition p2 = true.
Proof.
  unfold LowNode.GetNumParents, LowNode.IsTransposition. intros Hadd Htwo Hrun.
  assert (H1 : LowNode.is_transposition p1 = true).
  { unfold LowNode.AddParent in Hadd.
    destruct (assert_ mode _); simplify_eq/=.
    simpl in Htwo. apply orb_true_iff. right. apply Z.ltb_lt. lia. }
  split; [exact H1 |]. eapply run_parent_ops_keeps_latch; eassumption.
Qed.

End Latch.

(** The latch on a position that gets two parents and loses both. *)
Lemma transposition_latch_two_parents :
  LowNode.AddParent Debug S3_one_parent = Some S3_two_parents /\
  2 <= LowNode.GetNumParents S3_two_parents /\
  run_parent_ops Debug S3_two_parents [RemoveParentOp; RemoveParentOp]
    = Some S3_no_parent /\
  LowNode.GetNumParents S3_no_parent = 0 /\
  LowNode.IsTransposition S3_two_parents = true /\
  LowNode.IsTransposition S3_no_parent = true.
Proof.
  split; [reflexivity |]. split; [vm_compute; discriminate |].
  split; [reflexivity |]. split; [reflexivity |].
  apply (transposition_latch Debug S3_one_parent S3_two_parents S3_no_parent
           [RemoveParentOp; RemoveParentOp]).
  - reflexivity.
  - vm_compute; discriminate.
  - reflexivity.
Defined.

(** ** Sorting the edges *)

Lemma insert_desc_descending (e : Edge.t) (es : list Edge.t) :
  is_descending es = true -> is_descending (Edge.insert_desc e es) = true.
Proof.
  induction es as [| x rest IH]; intros Hd; [reflexivity |].
  cbn [Edge.insert_desc]. destruct (Z.leb_spec (Edge.p_ x) (Edge.p_ e)) as [Hle | Hgt].
  - cbn [is_descending]. apply andb_true_iff. split; [apply Z.leb_le; exact Hle | exact Hd].
  - destruct rest as [| y r].
    + cbn. apply andb_true_iff. split; [apply Z.leb_le; lia | reflexivity].
    + cbn [is_descending] in Hd. apply andb_true_iff in Hd as [Hyx Hrest].
      specialize (IH Hrest). cbn [Edge.insert_desc] in IH |- *.
      destruct (Z.leb_spec (Edge.p_ y) (Edge.p_ e)) as [Hye | Hye].
      * cbn [is_descending]. apply andb_true_iff.
        split; [apply Z.leb_le; lia | exact IH].
      * cbn [is_descending]. apply andb_true_iff. split; [exact Hyx | exact IH].
Qed.

Lemma insert_desc_Permutation (e : Edge.t) (es : list Edge.t) :
  Edge.insert_desc e es ≡ₚ e :: es.
Proof.
  induction es as [| x rest IH]; [reflexivity |].
  cbn [Edge.insert_desc]. destruct (Edge.p_ x <=? Edge.p_ e); [reflexivity |].
  rewrite IH. apply Permutation_swap.
Qed.

(** The model of [Edge::SortEdges] sorts: the result is in descending order
    of prior and holds the same edges. *)
Lemma sort_desc_sorts (es : list Edge.t) :
  is_descending (Edge.sort_desc es) = true /\ Edge.sort_desc es ≡ₚ es.
Proof.
  unfold Edge.sort_desc. induction es as [| e es [IHd IHp]]; [split; reflexivity |].
  cbn [foldr]. split.
  - apply insert_desc_descending. exact IHd.
  - rewrite insert_desc_Permutation. now rewrite IHp.
Qed.

(** Scenario S4, on the codes of the priors 0.1, 0.7, 0.2. *)
Lemma SortEdges_S4 :
  let code x := Edge.encode x in
  Edge.p_ <$> Edge.SortEdges
    [Edge.Make 100 (code 0x3DCCCCCD); Edge.Make 200 (code 0x3F333333);
     Edge.Make 300 (code 0x3E4CCCCD)] 3
  = [code 0x3F333333; code 0x3E4CCCCD; code 0x3DCCCCCD].
Proof. reflexivity. Qed.

(** ** The assertion of SortEdges *)

Section Sorting.
Context {F : Type} {FO : FloatOps F}.

(** C7, amended: the debug assertion of [SortEdges] fails exactly when the
    position has no edge array or [n != 0]; the realized children are not
    looked at and not changed.  A release build never stops. *)
Theorem SortEdges_assertion (p : LowNode.t F) :
  (LowNode.SortEdges Debug p = None <->
     LowNode.edges_ p = None \/ LowNode.n_ p <> 0) /\
  (forall p', LowNode.SortEdges Debug p = Some p' ->
     LowNode.slots p' = LowNode.slots p /\ LowNode.n_ p' = LowNode.n_ p) /\
  is_Some (LowNode.SortEdges Release p).
Proof.
  unfold LowNode.SortEdges. split; [| split].
  - destruct (LowNode.edges_ p) as [es |] eqn:He; cbn.
    + destruct (LowNode.n_ p =? 0) eqn:Hn; cbn.
      * apply Z.eqb_eq in Hn. split; [discriminate |]. intros [H | H]; congruence.
      * apply Z.eqb_neq in Hn. split; [auto | reflexivity].
    + split; [auto | reflexivity].
  - intros p' H.
    destruct (assert_ Debug (non_null _)); [| discriminate]. cbn in H.
    destruct (LowNode.n_ p =? 0); [| discriminate]. cbn in H.
    simplify_eq. split; reflexivity.
  - cbn. eexists. reflexivity.
Qed.

End Sorting.

(** The property as the specification states it fails in both directions:
    the assertion passes on the position whose child at index 1 was realized
    by its constructor, and it fails on a position with one finalized visit
    and no realized child. *)
Lemma SortEdges_ignores_children :
  (exists p, eager_position = Some p /\
             LowNode.children p <> [] /\
             is_Some (LowNode.SortEdges Debug p)) /\
  (let q := Search.first_visit S1_position (1 # 5)%Q 0%Q 10%Q in
   LowNode.children q = [] /\ LowNode.SortEdges Debug q = None).
Proof.
  split.
  - eexists. split; [reflexivity |]. split.
    + vm_compute. discriminate.
    + vm_compute. eexists. reflexivity.
  - split; reflexivity.
Qed.

(** ** Starting a score update *)

Section TryStart.
Context {F : Type} {FO : FloatOps F}.

(** C1: [TryStartScoreUpdate] returns true and increments [n_in_flight] by
    1 (in 32-bit unsigned arithmetic; by exactly 1 below the largest value)
    if and only if the node is not in the state [n == 0 && n_in_flight == 1];
    when it returns false the node, and so [n_in_flight], is unchanged. *)
Theorem TryStartScoreUpdate_spec (nd : Node.t F) :
  let ok := fst (Node.TryStartScoreUpdate nd) in
  let nd' := snd (Node.TryStartScoreUpdate nd) in
  (ok = true <-> ~ being_expanded nd) /\
  (ok = true ->
     Node.n_in_flight_ nd' = u32 (Node.n_in_flight_ nd + 1) /\
     (0 <= Node.n_in_flight_ nd < 2 ^ 32 - 1 ->
        Node.n_in_flight_ nd' = Node.n_in_flight_ nd + 1) /\
     Node.n_ nd' = Node.n_ nd /\ Node.wl_ nd' = Node.wl_ nd /\
     Node.index_ nd' = Node.index_ nd) /\
  (ok = false -> nd' = nd).
Proof.
  unfold Node.TryStartScoreUpdate, being_expanded. cbn.
  destruct (Z.eqb_spec (Node.n_ nd) 0) as [Hn | Hn];
    destruct (Z.eqb_spec (Node.n_in_flight_ nd) 1) as [Hf | Hf]; cbn.
  1: { split; [| split]; [| discriminate | reflexivity].
       split; [discriminate |]. intros H. exfalso. apply H. now split. }
  all: split; [| split]; [| | discriminate].
  all: try (split; [intros _ [H1 H2]; congruence | reflexivity]).
  all: intros _; split; [reflexivity |]; split; [| repeat split].
  all: intros Hr; apply u32_small; lia.
Qed.

(** The call as a machine, run with no other thread in between, is the
    function: at most two steps, the load and the compare-and-swap. *)
Lemma try_start_step_alone (nd : Node.t F) :
  let '(nd1, c1) := Node.try_start_step nd Node.AtLoad in
  let '(nd2, c2) := Node.try_start_step nd1 c1 in
  c2 = Node.Returned (fst (Node.TryStartScoreUpdate nd)) /\
  nd2 = snd (Node.TryStartScoreUpdate nd).
Proof.
  unfold Node.TryStartScoreUpdate. cbn.
  destruct ((Node.n_ nd =? 0) && (Node.n_in_flight_ nd =? 1)); cbn.
  - split; reflexivity.
  - rewrite Z.eqb_refl. split; reflexivity.
Qed.

(** *** Scenario S2: two threads, one fresh node *)

Lemma S2_invariant_step (s s' : TwoThreads.state F) :
  S2_invariant s -> TwoThreads.step s s' -> S2_invariant s'.
Proof.
  intros [Hn Hs] Hstep. destruct s as [nd c1 c2]. cbn in Hn, Hs.
  assert (Hset : forall v, Node.n_ (Node.set_n_in_flight nd v) = 0) by (intros; exact Hn).
  inversion Hstep as [s0 Hrun Hs0 | s0 Hrun Hs0]; subst s0 s';
    cbn in Hrun; unfold TwoThreads.run1, TwoThreads.run2, S2_invariant.
  - destruct Hs as [(Hf & H1 & H2) | (Hf & [(H1 & H2) | (H2 & H1)])].
    + destruct H1 as [-> | ->]; cbn; rewrite ?Hn, ?Hf; cbn; intuition (auto; congruence).
    + subst c1. discriminate.
    + destruct H1 as [[-> | ->] | ->]; try discriminate;
        cbn; rewrite ?Hn, ?Hf; cbn; intuition (auto; congruence).
  - destruct Hs as [(Hf & H1 & H2) | (Hf & [(H1 & H2) | (H2 & H1)])].
    + destruct H2 as [-> | ->]; cbn; rewrite ?Hn, ?Hf; cbn; intuition (auto; congruence).
    + destruct H2 as [[-> | ->] | ->]; try discriminate;
        cbn; rewrite ?Hn, ?Hf; cbn; intuition (auto; congruence).
    + subst c2. discriminate.
Qed.

Lemma S2_invariant_reachable (s s' : TwoThreads.state F) :
  rtc TwoThreads.step s s' -> S2_invariant s -> S2_invariant s'.
Proof.
  induction 1 as [| s s1 s2 Hstep _ IH]; [auto |].
  intros Hs. apply IH. eapply S2_invariant_step; eassumption.
Qed.

(** Two threads call [TryStartScoreUpdate] on the same freshly realized
    node: however their steps interleave, when both have returned exactly
    one of them has returned true, and one visit is in flight. *)
Theorem TryStartScoreUpdate_two_threads (nd : Node.t F) (s : TwoThreads.state F)
    (r1 r2 : bool) :
  Node.n_ nd = 0 -> Node.n_in_flight_ nd = 0 ->
  rtc TwoThreads.step (TwoThreads.initial nd) s ->
  TwoThreads.thread1 s = Node.Returned r1 ->
  TwoThreads.thread2 s = Node.Returned r2 ->
  xorb r1 r2 = true /\ Node.n_in_flight_ (TwoThreads.shared s) = 1.
Proof.
  intros Hn Hf Hreach H1 H2.
  assert (Hinit : S2_invariant (TwoThreads.initial nd)).
  { split; [exact Hn |]. left. cbn. auto. }
  destruct (S2_invariant_reachable _ _ Hreach Hinit) as [_ Hs].
  rewrite H1, H2 in Hs.
  destruct Hs as [(_ & [? | ?] & _) | (Hf' & [(? & [[? | ?] | ?]) | (? & [[? | ?] | ?])])];
    simplify_eq; split; auto.
Qed.

(** Both threads do return, for instance when they take turns: the first
    one succeeds and the second one, whose compare-and-swap fails, loads the
    counter again and gives up. *)
Lemma TryStartScoreUpdate_two_threads_return (nd : Node.t F) :
  Node.n_ nd = 0 -> Node.n_in_flight_ nd = 0 ->
  let s := TwoThreads.schedule [true; false; true; false; false; true]
             (TwoThreads.initial nd) in
  TwoThreads.thread1 s = Node.Returned true /\
  TwoThreads.thread2 s = Node.Returned false.
Proof.
  intros Hn Hf. destruct nd. cbn in Hn, Hf. subst. split; reflexivity.
Qed.

End TryStart.

Lemma TryStartScoreUpdate_spec_fresh :
  let nd := Node.create (F := Q) (Edge.Make 100 0) 1 in
  fst (Node.TryStartScoreUpdate nd) = true /\
  Node.n_in_flight_ (snd (Node.TryStartScoreUpdate nd)) = 1 /\
  fst (Node.TryStartScoreUpdate (snd (Node.TryStartScoreUpdate nd))) = false.
Proof.
  cbn zeta. split; [| split].
  - apply (TryStartScoreUpdate_spec (Node.create (F := Q) (Edge.Make 100 0) 1)).
    unfold being_expanded. cbn. intros [_ H]. discriminate H.
  - reflexivity.
  - reflexivity.
Defined.

(** ** Finalizing a score update *)

(** The scenario of the specification does not give [p.n == 2]: a position
    that was just built has [n == 0], so one finalized visit leaves
    [n == 1]. *)
Lemma S1_n_is_not_two :
  exists p ptr, S1_result = Some (p, ptr) /\ LowNode.GetN p = 1 /\ LowNode.GetN p <> 2.
Proof.
  eexists. eexists. split; [reflexivity |]. split; [reflexivity | discriminate].
Qed.

(** Over exact rationals the merged value is the mean of the old value
    with weight [n] and the new one with weight [k]. *)
Lemma merge_weighted_mean (x v : Q) (n k : Z) :
  0 <= n -> 1 <= k -> n + k < 2 ^ 32 ->
  (Node.merge x v n k == (inject_Z n * x + inject_Z k * v) / inject_Z (n + k))%Q.
Proof.
  intros Hn Hk Hs. unfold Node.merge. cbn.
  rewrite u32_small by lia.
  assert (Hnz : ~ (inject_Z (n + k) == 0)%Q).
  { unfold inject_Z, Qeq. cbn. lia. }
  rewrite inject_Z_plus in *. field. exact Hnz.
Qed.

(** C2, amended: for [k >= 1] and counters that stay in range,
    [FinalizeScoreUpdate(v, d, m, k)] leaves a node with
    [wl' = wl + k*(v - wl)/(n + k)], likewise [d'] and [m'], [n' = n + k]
    and [n_in_flight' = n_in_flight - k]; a low node is updated the same
    way and has no [n_in_flight]; finalizing one visit with [v = 0.2]
    through child 1 of a position that was just built gives [p.n == 1],
    [p.wl == 0.2], child 1's [wl == 0.2], and the other children null;
    [p.n == 2] is reached when the position's own first visit, with the
    same value, was finalized before. *)
Theorem FinalizeScoreUpdate_spec {F : Type} {FO : FloatOps F}
    (nd : Node.t F) (p : LowNode.t F) (v d m : F) (k : Z) :
  1 <= k ->
  0 <= Node.n_ nd -> Node.n_ nd + k < 2 ^ 32 ->
  k <= Node.n_in_flight_ nd < 2 ^ 32 ->
  0 <= LowNode.n_ p -> LowNode.n_ p + k < 2 ^ 32 ->
  let mean x v n := f_add x (f_div (f_mul (f_of_Z k) (f_sub v x)) (f_of_Z (n + k))) in
  let nd' := Node.FinalizeScoreUpdate nd v d m k in
  let p' := LowNode.FinalizeScoreUpdate p v d m k in
  (Node.wl_ nd' = mean (Node.wl_ nd) v (Node.n_ nd) /\
   Node.d_ nd' = mean (Node.d_ nd) d (Node.n_ nd) /\
   Node.m_ nd' = mean (Node.m_ nd) m (Node.n_ nd) /\
   Node.n_ nd' = Node.n_ nd + k /\
   Node.n_in_flight_ nd' = Node.n_in_flight_ nd - k) /\
  (LowNode.wl_ p' = mean (LowNode.wl_ p) v (LowNode.n_ p) /\
   LowNode.d_ p' = mean (LowNode.d_ p) d (LowNode.n_ p) /\
   LowNode.m_ p' = mean (LowNode.m_ p) m (LowNode.n_ p) /\
   LowNode.n_ p' = LowNode.n_ p + k /\
   LowNode.slots p' = LowNode.slots p) /\
  (exists q ptr child,
     S1_result = Some (q, ptr) /\
     LowNode.GetN q = 1 /\
     (LowNode.GetWL q == 1 # 5)%Q /\
     LowNode.GetChildAt q 1 = Some ptr /\
     LowNode.deref q ptr = Some child /\
     (Node.GetWL child == 1 # 5)%Q /\ Node.GetN child = 1 /\
     LowNode.GetChildAt q 0 = None /\ LowNode.GetChildAt q 2 = None) /\
  (exists q, S1_searched = Some q /\
             LowNode.GetN q = 2 /\ (LowNode.GetWL q == 1 # 5)%Q).
Proof.
  intros Hk Hn Hnk Hf Hpn Hpnk. cbn zeta.
  unfold Node.FinalizeScoreUpdate, LowNode.FinalizeScoreUpdate, Node.merge. cbn.
  rewrite !u32_small by lia.
  split; [repeat split | split; [repeat split | split]].
  - eexists. eexists. eexists. split; [reflexivity |].
    split; [reflexivity |]. split; [reflexivity |]. split; [reflexivity |].
    split; [reflexivity |]. repeat split.
  - eexists. split; [reflexivity |]. split; reflexivity.
Qed.

Lemma FinalizeScoreUpdate_spec_first_visit :
  let nd := Node.set_n_in_flight (Node.create (F := Q) (Edge.Make 200 0) 1) 1 in
  let nd' := Node.FinalizeScoreUpdate nd (1 # 5)%Q 0%Q 10%Q 1 in
  Node.n_ nd' = 1 /\ Node.n_in_flight_ nd' = 0.
Proof.
  cbn zeta.
  pose proof (FinalizeScoreUpdate_spec
                (Node.set_n_in_flight (Node.create (F := Q) (Edge.Make 200 0) 1) 1)
                S1_position (1 # 5)%Q 0%Q 10%Q 1) as H.
  cbn zeta in H.
  destruct H as [(_ & _ & _ & Hn & Hf) _]; cbn; try lia.
  split; [exact Hn | exact Hf].
Defined.

(** ** The 16-bit encoding of priors *)

Lemma lor_disjoint (a : Z) :
  0 <= a < 2 ^ 28 -> Z.lor a (Z.shiftl 3 28) = a + 3 * 2 ^ 28.
Proof.
  intros Ha. rewrite Z.shiftl_mul_pow2 by lia.
  assert (Hland : Z.land a (3 * 2 ^ 28) = 0).
  { apply Z.bits_inj'. intros n Hn. rewrite Z.land_spec, Z.bits_0.
    destruct (Z.lt_ge_cases n 28) as [Hlt | Hge].
    - rewrite (Z.mul_pow2_bits_low 3 28 n Hlt). apply andb_false_r.
    - assert (Hbit : Z.testbit a n = false).
      { destruct (Z.eq_dec a 0) as [-> | Hnz]; [apply Z.bits_0 |].
        apply Z.bits_above_log2; [lia |].
        apply Z.lt_le_trans with 28; [| exact Hge].
        apply Z.log2_lt_pow2; lia. }
      rewrite Hbit. reflexivity. }
  rewrite <- Z.lxor_lor by exact Hland.
  symmetry. apply Z.add_nocarry_lxor. exact Hland.
Qed.

Lemma decode_value (c : Z) :
  0 <= c < 2 ^ 16 -> Edge.decode c = c * 2 ^ 12 + 3 * 2 ^ 28.
Proof.
  intros Hc. unfold Edge.decode.
  rewrite Z.shiftl_mul_pow2 by lia.
  rewrite u32_small by lia. apply lor_disjoint. lia.
Qed.

Lemma encode_decode (c : Z) : 0 <= c < 2 ^ 16 -> Edge.encode (Edge.decode c) = c.
Proof.
  intros Hc. rewrite decode_value by exact Hc.
  unfold Edge.encode, Edge.roundings. rewrite !Z.shiftl_mul_pow2 by lia.
  replace (c * 2 ^ 12 + 3 * 2 ^ 28 + (1 * 2 ^ 11 - 3 * 2 ^ 28))
    with (2 ^ 11 + c * 2 ^ 12) by lia.
  assert (Hneg : (2 ^ 11 + c * 2 ^ 12 <? 0) = false) by (apply Z.ltb_ge; lia).
  rewrite Hneg, Z.shiftr_div_pow2 by lia.
  rewrite Z.div_add by lia. rewrite (Z.div_small (2 ^ 11)) by lia.
  apply u16_small. lia.
Qed.

Lemma representable_decode (c : Z) :
  0 <= c < 2 ^ 16 -> Edge.representable (Edge.decode c) = true.
Proof.
  intros Hc. rewrite decode_value by exact Hc. unfold Edge.representable.
  rewrite (Z.land_ones _ 12) by lia. rewrite Z.shiftr_div_pow2 by lia.
  change (2 ^ 12) with 4096. change (2 ^ 28) with 268435456.
  change (2 ^ 16) with 65536 in Hc.
  assert (H0 : 0 <= c * 4096 + 3 * 268435456) by lia.
  assert (H12 : (c * 4096 + 3 * 268435456) mod 4096 = 0)
    by (Z.div_mod_to_equations; lia).
  assert (H3 : (c * 4096 + 3 * 268435456) / 268435456 = 3)
    by (Z.div_mod_to_equations; lia).
  rewrite H12, H3. apply Z.leb_le in H0. rewrite H0. reflexivity.
Qed.

Lemma representable_code (x : Z) :
  Edge.representable x = true ->
  exists c, 0 <= c < 2 ^ 16 /\ x = Edge.decode c.
Proof.
  unfold Edge.representable. intros H.
  apply andb_true_iff in H as [H H3]. apply andb_true_iff in H as [H0 H12].
  apply Z.leb_le in H0. apply Z.eqb_eq in H12, H3.
  rewrite (Z.land_ones _ 12) in H12 by lia.
  rewrite Z.shiftr_div_pow2 in H3 by lia.
  exists (x / 2 ^ 12 - 3 * 2 ^ 16).
  assert (Hx : x = 2 ^ 12 * (x / 2 ^ 12)).
  { pose proof (Z.div_mod x (2 ^ 12)). lia. }
  assert (Hb : 3 * 2 ^ 28 <= x < 4 * 2 ^ 28).
  { pose proof (Z.div_mod x (2 ^ 28)). pose proof (Z.mod_pos_bound x (2 ^ 28)). lia. }
  assert (Hc : 0 <= x / 2 ^ 12 - 3 * 2 ^ 16 < 2 ^ 16) by lia.
  split; [exact Hc |]. rewrite decode_value by exact Hc. lia.
Qed.

Lemma encode_monotone (x y : Z) :
  0 <= x -> x <= y -> y <= float_one_bits -> Edge.encode x <= Edge.encode y.
Proof.
  unfold float_one_bits, Edge.encode, Edge.roundings. intros Hx Hxy Hy.
  rewrite !Z.shiftl_mul_pow2 by lia. cbn zeta.
  set (r := 1 * 2 ^ 11 - 3 * 2 ^ 28).
  assert (Hr : r = -805304320) by reflexivity.
  destruct (Z.ltb_spec (x + r) 0) as [Hxn | Hxn];
    destruct (Z.ltb_spec (y + r) 0) as [Hyn | Hyn]; try lia.
  - apply u16_range.
  - rewrite !Z.shiftr_div_pow2 by lia.
    assert (Hdiv : (x + r) / 2 ^ 12 <= (y + r) / 2 ^ 12)
      by (apply Z.div_le_mono; lia).
    assert (Hlo : 0 <= (x + r) / 2 ^ 12) by (apply Z.div_pos; lia).
    assert (Hhi : (y + r) / 2 ^ 12 < 2 ^ 16)
      by (apply Z.div_lt_upper_bound; lia).
    rewrite !u16_small by lia. exact Hdiv.
Qed.

(** On non-negative patterns the order of the values is the order of the
    patterns. *)
Lemma float_scaled_lt (a b : Z) :
  0 <= a -> a < b -> float_scaled a < float_scaled b.
Proof.
  intros Ha Hab. unfold float_scaled, float_exponent, float_fraction.
  pose proof (Z.div_mod a (2 ^ 23)) as Hda.
  pose proof (Z.div_mod b (2 ^ 23)) as Hdb.
  pose proof (Z.mod_pos_bound a (2 ^ 23)) as Hma.
  pose proof (Z.mod_pos_bound b (2 ^ 23)) as Hmb.
  assert (Hea : 0 <= a / 2 ^ 23) by (apply Z.div_pos; lia).
  assert (Hle : a / 2 ^ 23 <= b / 2 ^ 23) by (apply Z.div_le_mono; lia).
  set (ea := a / 2 ^ 23) in *. set (eb := b / 2 ^ 23) in *.
  set (ma := a mod 2 ^ 23) in *. set (mb := b mod 2 ^ 23) in *.
  destruct (Z.eqb_spec ea 0) as [Ha0 | Ha0]; destruct (Z.eqb_spec eb 0) as [Hb0 | Hb0].
  - lia.
  - assert (Hp : 1 <= 2 ^ (eb - 1)) by (apply (Z.pow_le_mono_r 2 0); lia).
    nia.
  - lia.
  - assert (Hpa : 0 < 2 ^ (ea - 1)) by (apply Z.pow_pos_nonneg; lia).
    destruct (Z.eq_dec ea eb) as [Heq | Hne].
    + rewrite <- Heq. nia.
    + assert (Hp : 2 ^ ea <= 2 ^ (eb - 1)) by (apply Z.pow_le_mono_r; lia).
      assert (Hs : 2 ^ ea = 2 * 2 ^ (ea - 1)).
      { replace ea with (Z.succ (ea - 1)) at 1 by lia. apply Z.pow_succ_r. lia. }
      nia.
Qed.

Lemma float_value_le (x y : Z) :
  0 <= x -> 0 <= y -> (float_value x <= float_value y)%Q -> x <= y.
Proof.
  intros Hx Hy Hle. destruct (Z.le_gt_cases x y) as [H | H]; [exact H |].
  exfalso. pose proof (float_scaled_lt y x Hy H) as Hlt.
  unfold float_value, Qle in Hle. cbn in Hle. nia.
Qed.

Lemma float_value_one : (float_value float_one_bits == 1)%Q.
Proof. reflexivity. Qed.

Lemma float_value_zero : (float_value float_zero_bits == 0)%Q.
Proof. reflexivity. Qed.

(** C8: decoding after encoding is the identity on the representable
    priors, the codes and the representable priors correspond one to one,
    and the encoding is monotonic on all of [0, 1]: for priors [x <= y] the
    code of [x] is at most the code of [y]. *)
Theorem prior_encoding_roundtrip_monotone :
  (forall (e : Edge.t) (x : Z),
     Edge.representable x = true -> Edge.GetP (Edge.SetP e x) = x) /\
  (forall e : Edge.t,
     0 <= Edge.p_ e < 2 ^ 16 ->
     Edge.representable (Edge.GetP e) = true /\
     Edge.p_ (Edge.SetP e (Edge.GetP e)) = Edge.p_ e) /\
  (forall (e : Edge.t) (x y : Z),
     0 <= x -> 0 <= y ->
     (float_value float_zero_bits <= float_value x)%Q ->
     (float_value x <= float_value y)%Q ->
     (float_value y <= float_value float_one_bits)%Q ->
     Edge.p_ (Edge.SetP e x) <= Edge.p_ (Edge.SetP e y) /\
     0 <= Edge.p_ (Edge.SetP e x) < 2 ^ 16).
Proof.
  split; [| split].
  - intros e x Hx. unfold Edge.GetP, Edge.SetP. cbn.
    destruct (representable_code x Hx) as (c & Hc & ->).
    now rewrite encode_decode.
  - intros e He. unfold Edge.GetP, Edge.SetP. cbn.
    split; [apply representable_decode | apply encode_decode]; exact He.
  - intros e x y Hx Hy _ Hxy Hy1. unfold Edge.SetP. cbn.
    apply float_value_le in Hxy; [| exact Hx | exact Hy].
    apply float_value_le in Hy1; [| exact Hy | unfold float_one_bits; lia].
    split; [apply encode_monotone; assumption |].
    unfold Edge.encode. destruct (_ <? 0); [lia | apply u16_range].
Qed.

Lemma prior_encoding_one :
  Edge.representable float_one_bits = true /\
  Edge.GetP (Edge.SetP (Edge.Make 100 0) float_one_bits) = float_one_bits.
Proof.
  split; [reflexivity |].
  apply (proj1 prior_encoding_roundtrip_monotone (Edge.Make 100 0) float_one_bits).
  reflexivity.
Defined.

(** ** The child storage *)

Section Storage.
Context {F : Type} {FO : FloatOps F}.
Implicit Types (p : LowNode.t F) (nd : Node.t F) (ptr : NodePtr).

Lemma well_formed_allocated p :
  well_formed p ->
  LowNode.allocated_children_ p = Z.of_nat (length (LowNode.slots p)) /\
  2 <= LowNode.allocated_children_ p < 2 ^ 8.
Proof.
  intros (Hs & Hn & _ & Hd). unfold LowNode.slots.
  rewrite length_app, Hs. destruct (LowNode.dynamic_children_ p) as [arr |]; cbn; lia.
Qed.

Lemma deref_slot p ptr nd :
  well_formed p -> LowNode.deref p ptr = Some nd ->
  LowNode.slots p !! slot_of ptr = Some nd.
Proof.
  intros (Hs & _) Hd. unfold LowNode.slots. destruct ptr as [k | k]; cbn in *.
  - rewrite lookup_app_l; [exact Hd |]. eapply lookup_lt_Some; eassumption.
  - destruct (LowNode.dynamic_children_ p) as [arr |]; [| discriminate]. cbn in *.
    rewrite lookup_app_r by lia. rewrite Hs.
    replace (S (S k) - 2)%nat with k by lia. exact Hd.
Qed.

Lemma slots_store p ptr nd nd' :
  well_formed p -> LowNode.deref p ptr = Some nd ->
  LowNode.slots (LowNode.store p ptr nd') = <[slot_of ptr := nd']> (LowNode.slots p).
Proof.
  intros (Hs & _) Hd. unfold LowNode.slots. destruct ptr as [k | k]; cbn in *.
  - rewrite insert_app_l; [reflexivity |]. eapply lookup_lt_Some; eassumption.
  - destruct (LowNode.dynamic_children_ p) as [arr |]; [| discriminate]. cbn in *.
    rewrite insert_app_r_alt by lia. rewrite Hs.
    replace (S (S k) - 2)%nat with k by lia. reflexivity.
Qed.

Lemma deref_store p ptr nd nd' :
  LowNode.deref p ptr = Some nd ->
  LowNode.deref (LowNode.store p ptr nd') ptr = Some nd'.
Proof.
  intros Hd. destruct ptr as [k | k]; cbn in *.
  - apply list_lookup_insert_eq. eapply lookup_lt_Some; eassumption.
  - destruct (LowNode.dynamic_children_ p) as [arr |]; [| discriminate]. cbn in *.
    apply list_lookup_insert_eq. eapply lookup_lt_Some; eassumption.
Qed.

Lemma store_well_formed p ptr nd' :
  well_formed p -> well_formed (LowNode.store p ptr nd').
Proof.
  intros (Hs & Hn & He & Hd). destruct ptr as [k | k]; cbn.
  - unfold well_formed. cbn. rewrite length_insert. auto.
  - unfold well_formed. cbn. repeat split; try tauto.
    destruct (LowNode.dynamic_children_ p) as [arr |]; cbn; [| exact Hd].
    rewrite length_insert. exact Hd.
Qed.

Lemma FindPlaceOf_slot p i ptr :
  well_formed p -> 0 <= i -> LowNode.FindPlaceOf p i = Some ptr ->
  slot_of ptr = Z.to_nat i /\ i < LowNode.allocated_children_ p.
Proof.
  intros Hwf Hi. pose proof (well_formed_allocated p Hwf) as [_ Ha].
  unfold LowNode.FindPlaceOf, LowNode.kStaticChildrenArraySize.
  destruct (Z.ltb_spec i 2); [| destruct (Z.ltb_spec i (LowNode.allocated_children_ p))];
    intros Hptr; simplify_eq; cbn; split; lia.
Qed.

Lemma FindPlaceOf_total p i :
  well_formed p -> 0 <= i < LowNode.allocated_children_ p ->
  exists ptr nd, LowNode.FindPlaceOf p i = Some ptr /\ LowNode.deref p ptr = Some nd.
Proof.
  intros Hwf Hi. pose proof (well_formed_allocated p Hwf) as [Hlen _].
  destruct Hwf as (Hs & Hn & He & Hd).
  unfold LowNode.FindPlaceOf, LowNode.kStaticChildrenArraySize.
  destruct (Z.ltb_spec i 2) as [H2 | H2].
  - destruct (lookup_lt_is_Some_2 (LowNode.static_children_ p) (Z.to_nat i)) as [nd Hnd];
      [lia |]. eauto.
  - destruct (Z.ltb_spec i (LowNode.allocated_children_ p)); [| lia].
    destruct (LowNode.dynamic_children_ p) as [arr |] eqn:Harr; [| lia].
    destruct (lookup_lt_is_Some_2 arr (Z.to_nat (i - 2))) as [nd Hnd]; [lia |].
    eexists. exists nd. split; [reflexivity |]. cbn. rewrite Harr. exact Hnd.
Qed.

Lemma FindPlaceOf_outside p i :
  LowNode.allocated_children_ p <= i -> 2 <= i -> LowNode.FindPlaceOf p i = None.
Proof.
  intros Ha H2. unfold LowNode.FindPlaceOf, LowNode.kStaticChildrenArraySize.
  destruct (Z.ltb_spec i 2); [lia |].
  destruct (Z.ltb_spec i (LowNode.allocated_children_ p)); [lia | reflexivity].
Qed.

Lemma FindPlaceOf_store p ptr nd' i :
  LowNode.FindPlaceOf (LowNode.store p ptr nd') i = LowNode.FindPlaceOf p i.
Proof. destruct ptr; reflexivity. Qed.

(** The visits of the children, slot by slot. *)
Lemma children_n_weight p : LowNode.children_n p = total_weight (LowNode.slots p).
Proof.
  unfold LowNode.children_n, LowNode.children, total_weight, weight.
  induction (LowNode.slots p) as [| nd l IH]; [reflexivity |].
  rewrite filter_cons. cbn. destruct (Node.Realized nd) eqn:Hr.
  - rewrite decide_True by reflexivity. cbn. now rewrite IH.
  - rewrite decide_False by discriminate. now rewrite IH.
Qed.

Lemma total_weight_cons nd (l : list (Node.t F)) :
  total_weight (nd :: l) = weight nd + total_weight l.
Proof. reflexivity. Qed.

Lemma total_weight_app (l1 l2 : list (Node.t F)) :
  total_weight (l1 ++ l2) = total_weight l1 + total_weight l2.
Proof.
  induction l1 as [| nd l1 IH]; [reflexivity |].
  rewrite <- app_comm_cons, !total_weight_cons, IH. lia.
Qed.

Lemma total_weight_insert (l : list (Node.t F)) (k : nat) nd nd' :
  l !! k = Some nd ->
  total_weight (<[k := nd']> l) = total_weight l - weight nd + weight nd'.
Proof.
  revert k. induction l as [| x l IH]; intros k Hk; [discriminate |].
  destruct k as [| k].
  - injection Hk as ->. change (<[0%nat := nd']> (nd :: l)) with (nd' :: l).
    rewrite !total_weight_cons. lia.
  - change (<[S k := nd']> (x :: l)) with (x :: <[k := nd']> l).
    rewrite !total_weight_cons, (IH k Hk). lia.
Qed.

Lemma total_weight_constructed (n : nat) :
  total_weight (replicate n (Node.constructed (F := F))) = 0.
Proof.
  induction n as [| n IH]; [reflexivity |].
  change (replicate (S n) (Node.constructed (F := F)))
    with (Node.constructed (F := F) :: replicate n Node.constructed).
  rewrite total_weight_cons, IH. reflexivity.
Qed.

End Storage.

(** ** Realizing a child *)

Section Realization.
Context {F : Type} {FO : FloatOps F}.
Implicit Types (p : LowNode.t F) (nd : Node.t F) (ptr : NodePtr).

Lemma Allocate_well_formed p i :
  well_formed p -> LowNode.dynamic_children_ p = None ->
  2 <= i < LowNode.num_edges_ p -> well_formed (LowNode.Allocate p).
Proof.
  intros (Hs & Hn & He & Hd) Hnone Hi. unfold well_formed, LowNode.Allocate. cbn.
  rewrite length_replicate. unfold LowNode.kStaticChildrenArraySize.
  repeat split; try tauto; lia.
Qed.

Lemma Allocate_slots p :
  LowNode.dynamic_children_ p = None ->
  LowNode.slots (LowNode.Allocate p) =
  LowNode.slots p ++
  replicate (Z.to_nat (LowNode.num_edges_ p - 2)) (Node.constructed (F := F)).
Proof.
  intros Hnone. unfold LowNode.slots, LowNode.Allocate. cbn.
  rewrite Hnone. cbn. now rewrite app_nil_r.
Qed.

(** The slot [InsertChildAt] works on, after the spill was allocated if it
    had to be, and what the call does with the node it finds there. *)
Lemma InsertChildAt_eq p i es edge :
  well_formed p -> LowNode.edges_ p = Some es -> es !! Z.to_nat i = Some edge ->
  0 <= i < LowNode.num_edges_ p ->
  let p0 := if (i <? 2) || (i <? LowNode.allocated_children_ p)
            then p else LowNode.Allocate p in
  exists ptr nd0,
    LowNode.FindPlaceOf p0 i = Some ptr /\ LowNode.deref p0 ptr = Some nd0 /\
    well_formed p0 /\
    (p0 = p \/ (p0 = LowNode.Allocate p /\ LowNode.dynamic_children_ p = None /\
                LowNode.FindPlaceOf p i = None)) /\
    LowNode.InsertChildAt p i =
      if Node.index_ nd0 =? Node.kMagicIndexConstructed
      then Some (LowNode.store p0 ptr (Node.assign nd0 edge i), ptr)
      else if Node.Realized nd0 then Some (p0, ptr) else None.
Proof.
  intros Hwf Hes Hedge Hi p0.
  pose proof (well_formed_allocated p Hwf) as [_ Ha].
  assert (Hp0 : well_formed p0 /\ i < LowNode.allocated_children_ p0 /\
                (p0 = p \/ (p0 = LowNode.Allocate p /\
                            LowNode.dynamic_children_ p = None /\
                            LowNode.FindPlaceOf p i = None))).
  { subst p0. destruct (Z.ltb_spec i 2) as [H2 | H2]; cbn.
    - split; [exact Hwf |]. split; [lia | now left].
    - destruct (Z.ltb_spec i (LowNode.allocated_children_ p)) as [Hlt | Hge].
      + split; [exact Hwf |]. split; [exact Hlt | now left].
      + assert (Hnone : LowNode.dynamic_children_ p = None).
        { destruct Hwf as (_ & _ & _ & Hd).
          destruct (LowNode.dynamic_children_ p); [lia | reflexivity]. }
        split; [apply (Allocate_well_formed p i); [exact Hwf | exact Hnone | lia] |].
        split; [cbn; lia |]. right. split; [reflexivity |]. split; [exact Hnone |].
        apply FindPlaceOf_outside; lia. }
  destruct Hp0 as (Hwf0 & Hlt0 & Hcase).
  destruct (FindPlaceOf_total p0 i Hwf0) as (ptr & nd0 & Hptr & Hnd0); [lia |].
  exists ptr, nd0. split; [exact Hptr |]. split; [exact Hnd0 |].
  split; [exact Hwf0 |]. split; [exact Hcase |].
  unfold LowNode.InsertChildAt. rewrite Hes. cbn.
  assert (Hrange : (0 <=? i) && (i <? LowNode.num_edges_ p) = true).
  { apply andb_true_iff. split; [apply Z.leb_le | apply Z.ltb_lt]; lia. }
  rewrite Hrange. cbn. rewrite Hedge. cbn.
  unfold LowNode.kStaticChildrenArraySize. fold p0.
  rewrite Hptr. cbn. rewrite Hnd0. cbn. reflexivity.
Qed.

Lemma in_place_Allocate p :
  LowNode.dynamic_children_ p = None -> in_place p -> in_place (LowNode.Allocate p).
Proof.
  intros Hnone Hin k nd. rewrite (Allocate_slots p Hnone).
  intros Hk. apply lookup_app_Some in Hk as [Hk | [_ Hk]].
  - apply (Hin k nd Hk).
  - apply lookup_replicate in Hk as [-> _]. unfold slot_in_place. reflexivity.
Qed.

Lemma in_place_store p i es edge ptr nd0 :
  well_formed p -> in_place p -> 0 <= i < 2 ^ 8 ->
  LowNode.edges_ p = Some es -> es !! Z.to_nat i = Some edge ->
  LowNode.FindPlaceOf p i = Some ptr -> LowNode.deref p ptr = Some nd0 ->
  in_place (LowNode.store p ptr (Node.assign nd0 edge i)).
Proof.
  intros Hwf Hin Hi Hes Hedge Hptr Hnd0 k nd.
  rewrite (slots_store p ptr nd0) by assumption.
  destruct (FindPlaceOf_slot p i ptr Hwf) as [Hslot _]; [lia | exact Hptr |].
  rewrite Hslot.
  assert (Hedges : LowNode.edges_ (LowNode.store p ptr (Node.assign nd0 edge i))
                   = LowNode.edges_ p) by (destruct ptr; reflexivity).
  rewrite Hedges. intros Hk. apply list_lookup_insert_Some in Hk as [(<- & <- & _) | (_ & Hk)].
  - unfold slot_in_place, Node.Realized, Node.kMagicIndexAssigned. cbn.
    destruct (Z.ltb_spec i 32767); [| lia].
    rewrite Hes. cbn. split; [lia | exact Hedge].
  - apply (Hin k nd Hk).
Qed.

(** Where the storage rule of the header holds ("realized edges are stored
    at index they have in edges_"), realization is idempotent: for every
    valid edge index [i], [InsertChildAt(i)] returns a node whose index is
    [i] and whose edge is a copy of the parent's edge at [i]; a repeated
    call returns the same pointer and changes nothing; [GetChildAt(i)] is
    null before the child is realized and that same pointer afterwards; and
    the position keeps the storage rule. *)
Theorem InsertChildAt_idempotent p (i : Z) :
  well_formed p -> in_place p -> 0 <= i < LowNode.num_edges_ p ->
  exists p1 ptr nd es,
    LowNode.InsertChildAt p i = Some (p1, ptr) /\
    LowNode.InsertChildAt p1 i = Some (p1, ptr) /\
    LowNode.deref p1 ptr = Some nd /\
    Node.Index nd = i /\
    LowNode.edges_ p = Some es /\ LowNode.edges_ p1 = Some es /\
    es !! Z.to_nat i = Some (Node.edge_ nd) /\
    (LowNode.GetChildAt p i = None \/ (LowNode.GetChildAt p i = Some ptr /\ p1 = p)) /\
    LowNode.GetChildAt p1 i = Some ptr /\
    well_formed p1 /\ in_place p1.
Proof.
  intros Hwf Hin Hi.
  destruct Hwf as (Hs & Hn & (es & Hes & Hlen) & Hd).
  assert (Hwf : well_formed p) by (unfold well_formed; eauto 10).
  destruct (lookup_lt_is_Some_2 es (Z.to_nat i)) as [edge Hedge]; [lia |].
  destruct (InsertChildAt_eq p i es edge Hwf Hes Hedge Hi)
    as (ptr & nd0 & Hptr & Hnd0 & Hwf0 & Hcase & Hins).
  set (p0 := if (i <? 2) || (i <? LowNode.allocated_children_ p)
             then p else LowNode.Allocate p) in *.
  assert (Hes0 : LowNode.edges_ p0 = Some es).
  { destruct Hcase as [-> | (-> & _)]; [exact Hes | exact Hes]. }
  assert (Hnum0 : LowNode.num_edges_ p0 = LowNode.num_edges_ p).
  { destruct Hcase as [-> | (-> & _)]; reflexivity. }
  assert (Hin0 : in_place p0).
  { destruct Hcase as [-> | (-> & Hnone & _)]; [exact Hin |].
    now apply in_place_Allocate. }
  assert (Hbefore : Node.Realized nd0 = false -> LowNode.GetChildAt p i = None).
  { intros Hnr. destruct Hcase as [Heq | (_ & _ & Hnone)].
    - rewrite Heq in Hptr, Hnd0. unfold LowNode.GetChildAt.
      rewrite Hptr. cbn. rewrite Hnd0. cbn. now rewrite Hnr.
    - unfold LowNode.GetChildAt. now rewrite Hnone. }
  destruct (FindPlaceOf_slot p0 i ptr Hwf0) as [Hslot _]; [lia | exact Hptr |].
  pose proof (deref_slot p0 ptr nd0 Hwf0 Hnd0) as Hlook. rewrite Hslot in Hlook.
  pose proof (Hin0 _ _ Hlook) as Hplace. unfold slot_in_place in Hplace.
  rewrite Hes0 in Hplace. cbn in Hplace.
  destruct (Node.Realized nd0) eqn:Hreal.
  - (* the child was realized before *)
    destruct Hplace as [Hidx Hedge0].
    assert (Hne : (Node.index_ nd0 =? Node.kMagicIndexConstructed) = false).
    { apply Z.eqb_neq. unfold Node.kMagicIndexConstructed. lia. }
    rewrite Hne in Hins.
    assert (Hp0 : p0 = p).
    { destruct Hcase as [Heq | (_ & Hnone & Hfind)]; [exact Heq |].
      exfalso. subst p0.
      destruct (Z.ltb_spec i 2) as [H2 | H2]; cbn in *.
      - unfold LowNode.FindPlaceOf, LowNode.kStaticChildrenArraySize in Hfind.
        destruct (Z.ltb_spec i 2); [discriminate | lia].
      - destruct (Z.ltb_spec i (LowNode.allocated_children_ p)) as [Hlt | Hge]; cbn in *.
        + unfold LowNode.FindPlaceOf, LowNode.kStaticChildrenArraySize in Hfind.
          destruct (Z.ltb_spec i 2); [lia |].
          destruct (Z.ltb_spec i (LowNode.allocated_children_ p)); [discriminate | lia].
        + destruct ptr as [k | k]; cbn in Hnd0.
          * unfold LowNode.FindPlaceOf, LowNode.kStaticChildrenArraySize in Hptr.
            destruct (Z.ltb_spec i 2); [lia |].
            destruct (_ <? _); discriminate.
          * apply lookup_replicate in Hnd0 as [-> _]. discriminate Hreal. }
    rewrite Hp0 in *.
    assert (Hget : LowNode.GetChildAt p i = Some ptr).
    { unfold LowNode.GetChildAt. rewrite Hptr. cbn. rewrite Hnd0. cbn. now rewrite Hreal. }
    exists p, ptr, nd0, es.
    split; [exact Hins |]. split; [exact Hins |]. split; [exact Hnd0 |].
    split; [unfold Node.Index; lia |]. split; [exact Hes |]. split; [exact Hes |].
    split; [exact Hedge0 |]. split; [right; split; [exact Hget | reflexivity] |].
    split; [exact Hget |]. split; [exact Hwf | exact Hin].
  - (* the child is realized by this call *)
    assert (Heq : (Node.index_ nd0 =? Node.kMagicIndexConstructed) = true)
      by (apply Z.eqb_eq; exact Hplace).
    rewrite Heq in Hins.
    set (nd1 := Node.assign nd0 edge i) in *.
    set (p1 := LowNode.store p0 ptr nd1) in *.
    assert (Hwf1 : well_formed p1) by (apply store_well_formed; exact Hwf0).
    assert (Hnd1 : LowNode.deref p1 ptr = Some nd1) by (eapply deref_store; exact Hnd0).
    assert (Hptr1 : LowNode.FindPlaceOf p1 i = Some ptr).
    { unfold p1. rewrite FindPlaceOf_store. exact Hptr. }
    assert (Hreal1 : Node.Realized nd1 = true).
    { unfold Node.Realized, Node.kMagicIndexAssigned. cbn. apply Z.ltb_lt. lia. }
    assert (Hes1 : LowNode.edges_ p1 = Some es).
    { unfold p1. destruct ptr; exact Hes0. }
    assert (Hget1 : LowNode.GetChildAt p1 i = Some ptr).
    { unfold LowNode.GetChildAt. rewrite Hptr1. cbn. rewrite Hnd1. cbn. now rewrite Hreal1. }
    assert (Hin1 : in_place p1).
    { unfold p1, nd1. eapply in_place_store; eauto. lia. }
    assert (Hi1 : 0 <= i < LowNode.num_edges_ p1).
    { unfold p1. destruct ptr; cbn; lia. }
    exists p1, ptr, nd1, es.
    split; [exact Hins |]. split.
    { destruct (InsertChildAt_eq p1 i es edge Hwf1 Hes1 Hedge Hi1)
        as (ptr' & nd' & Hptr' & Hnd' & _ & _ & Hins').
      assert (Halloc : (i <? 2) || (i <? LowNode.allocated_children_ p1) = true).
      { destruct (FindPlaceOf_slot p1 i ptr Hwf1) as [_ Hlt]; [lia | exact Hptr1 |].
        apply orb_true_iff. right. apply Z.ltb_lt. exact Hlt. }
      rewrite Halloc in Hptr', Hnd', Hins'.
      rewrite Hptr1 in Hptr'. injection Hptr' as <-.
      rewrite Hnd1 in Hnd'. injection Hnd' as <-.
      rewrite Hreal1 in Hins'.
      assert (Hne : (Node.index_ nd1 =? Node.kMagicIndexConstructed) = false).
      { apply Z.eqb_neq. unfold Node.kMagicIndexConstructed. cbn. lia. }
      rewrite Hne in Hins'. exact Hins'. }
    split; [exact Hnd1 |]. split; [reflexivity |]. split; [exact Hes |].
    split; [exact Hes1 |]. split; [exact Hedge |].
    split; [left; apply Hbefore; reflexivity |].
    split; [exact Hget1 |]. split; [exact Hwf1 | exact Hin1].
Qed.

End Realization.

(** *** The positions the constructors build *)

Section Constructors.
Context {F : Type} {FO : FloatOps F}.

Lemma of_moves_well_formed (moves : MoveList) :
  (length moves < 256)%nat -> well_formed (LowNode.of_moves (F := F) moves).
Proof.
  intros Hlen. unfold well_formed, LowNode.of_moves. cbn.
  assert (Hu : u8 (Z.of_nat (length moves)) = Z.of_nat (length moves)).
  { unfold u8. apply Z.mod_small. lia. }
  rewrite Hu. split; [reflexivity |]. split; [lia |]. split; [| reflexivity].
  eexists. split; [reflexivity |]. unfold Edge.FromMovelist. now rewrite length_map.
Qed.

Lemma of_moves_in_place (moves : MoveList) : in_place (LowNode.of_moves (F := F) moves).
Proof.
  intros k nd Hk. unfold LowNode.of_moves, LowNode.slots in Hk. cbn in Hk.
  destruct k as [| [| k]]; cbn in Hk; simplify_eq; reflexivity.
Qed.

Lemma of_moves_unvisited (moves : MoveList) : unvisited (LowNode.of_moves (F := F) moves).
Proof.
  split; [reflexivity |]. unfold LowNode.of_moves, LowNode.slots. cbn.
  repeat constructor.
Qed.

(** The constructor that creates the child at [index] puts it in the slot
    of its index only for [index = 0]. *)
Lemma of_moves_index_in_place (moves : MoveList) (p : LowNode.t F) :
  LowNode.of_moves_index moves 0 = Some p -> in_place p.
Proof.
  unfold LowNode.of_moves_index. intros H.
  destruct (Edge.FromMovelist moves !! Z.to_nat 0) as [edge |] eqn:He; simplify_eq/=.
  intros k nd Hk. unfold LowNode.slots in Hk. cbn in Hk.
  destruct k as [| [| k]]; cbn in Hk; simplify_eq; [| reflexivity].
  unfold slot_in_place. cbn. split; [reflexivity | exact He].
Qed.

Lemma of_moves_index_well_formed (moves : MoveList) (index : Z) (p : LowNode.t F) :
  (length moves < 256)%nat ->
  LowNode.of_moves_index moves index = Some p -> well_formed p.
Proof.
  unfold LowNode.of_moves_index. intros Hlen H.
  destruct (Edge.FromMovelist moves !! Z.to_nat index) as [edge |] eqn:He; simplify_eq/=.
  pose proof (of_moves_well_formed moves Hlen) as (Hs & Hn & Hes & Hd).
  unfold well_formed. cbn in *. auto.
Qed.

End Constructors.


Lemma S1_position_well_formed : well_formed S1_position.
Proof.
  unfold well_formed. cbn. split; [reflexivity |]. split; [lia |].
  split; [| reflexivity]. eexists. split; reflexivity.
Qed.

Lemma S1_position_in_place : in_place S1_position.
Proof.
  intros k nd Hk. unfold LowNode.slots in Hk. cbn in Hk.
  destruct k as [| [| k]]; cbn in Hk; simplify_eq; reflexivity.
Qed.

Lemma S1_position_unvisited : unvisited S1_position.
Proof. split; [reflexivity |]. unfold LowNode.slots. cbn. repeat constructor. Qed.

Lemma InsertChildAt_idempotent_S1 :
  well_formed S1_position /\ in_place S1_position /\
  0 <= 1 < LowNode.num_edges_ S1_position /\
  exists p1 ptr,
    LowNode.InsertChildAt S1_position 1 = Some (p1, ptr) /\
    LowNode.InsertChildAt p1 1 = Some (p1, ptr) /\
    LowNode.GetChildAt p1 1 = Some ptr.
Proof.
  pose proof S1_position_well_formed as Hwf.
  pose proof S1_position_in_place as Hin.
  assert (Hi : 0 <= 1 < LowNode.num_edges_ S1_position) by (change (0 <= 1 < 3); lia).
  split; [exact Hwf |]. split; [exact Hin |]. split; [exact Hi |].
  destruct (InsertChildAt_idempotent S1_position 1 Hwf Hin Hi)
    as (p1 & ptr & nd & es & H1 & H2 & _ & _ & _ & _ & _ & _ & H3 & _).
  exists p1, ptr. split; [exact H1 |]. split; [exact H2 | exact H3].
Defined.

(** ** The visits of a position and of its children *)

(** The property as the specification states it fails on a position that
    was just built: no descent has reached it, its [n] is 0 and not 1, and [GetChildrenVisits()] is
    [2^32 - 1] while its children have no visit. *)
Lemma fresh_position_not_counted :
  Search.run S1_position [] = Some S1_position /\
  LowNode.children_n S1_position = 0 /\
  LowNode.GetN S1_position = 0 /\
  LowNode.GetN S1_position <> 1 + LowNode.children_n S1_position /\
  LowNode.GetChildrenVisits S1_position <> LowNode.children_n S1_position.
Proof.
  split; [reflexivity |]. split; [reflexivity |]. split; [reflexivity |].
  split; discriminate.
Qed.

Section Visits.
Context {F : Type} {FO : FloatOps F}.
Implicit Types (p : LowNode.t F) (nd : Node.t F) (ptr : NodePtr).

Lemma total_weight_nonneg (l : list (Node.t F)) :
  Forall (fun nd => 0 <= Node.n_ nd) l -> 0 <= total_weight l.
Proof.
  induction 1 as [| nd l Hnd _ IH]; [reflexivity |].
  rewrite total_weight_cons. unfold weight. destruct (Node.Realized nd); lia.
Qed.

Lemma total_weight_unvisited (l : list (Node.t F)) :
  Forall (fun nd => Node.n_ nd = 0) l -> total_weight l = 0.
Proof.
  induction 1 as [| nd l Hnd _ IH]; [reflexivity |].
  rewrite total_weight_cons, IH. unfold weight. rewrite Hnd.
  destruct (Node.Realized nd); reflexivity.
Qed.

Lemma FinalizeScoreUpdate_slots p (v d m : F) (k : Z) :
  LowNode.slots (LowNode.FinalizeScoreUpdate p v d m k) = LowNode.slots p.
Proof. reflexivity. Qed.

Lemma FinalizeScoreUpdate_children_n p (v d m : F) (k : Z) :
  LowNode.children_n (LowNode.FinalizeScoreUpdate p v d m k) = LowNode.children_n p.
Proof. reflexivity. Qed.

Lemma FinalizeScoreUpdate_n p (v d m : F) (k : Z) :
  LowNode.n_ (LowNode.FinalizeScoreUpdate p v d m k) = u32 (LowNode.n_ p + k).
Proof. reflexivity. Qed.

Lemma FinalizeScoreUpdate_well_formed p (v d m : F) (k : Z) :
  well_formed p -> well_formed (LowNode.FinalizeScoreUpdate p v d m k).
Proof. intros H. exact H. Qed.

Lemma first_visit_searched p (v d m : F) :
  well_formed p -> unvisited p -> searched (Search.first_visit p v d m).
Proof.
  intros Hwf [Hn Hslots]. unfold searched, Search.first_visit, idle_slots_empty.
  rewrite FinalizeScoreUpdate_slots, FinalizeScoreUpdate_children_n,
    FinalizeScoreUpdate_n, Hn, children_n_weight,
    (total_weight_unvisited _ Hslots).
  split; [apply FinalizeScoreUpdate_well_formed; exact Hwf |].
  split; [eapply Forall_impl; [exact Hslots |]; cbn; auto |].
  split; [eapply Forall_impl; [exact Hslots |]; cbn; lia |].
  reflexivity.
Qed.

(** A realized child is replaced by a realized node. *)
Lemma store_child p ptr nd nd' :
  well_formed p -> idle_slots_empty p ->
  Forall (fun nd => 0 <= Node.n_ nd) (LowNode.slots p) ->
  LowNode.deref p ptr = Some nd ->
  Node.Realized nd' = true -> 0 <= Node.n_ nd' ->
  let p' := LowNode.store p ptr nd' in
  well_formed p' /\ idle_slots_empty p' /\
  Forall (fun nd => 0 <= Node.n_ nd) (LowNode.slots p') /\
  LowNode.children_n p' = LowNode.children_n p - weight nd + Node.n_ nd' /\
  LowNode.n_ p' = LowNode.n_ p.
Proof.
  intros Hwf Hidle Hpos Hnd Hreal Hn. cbn zeta.
  split; [apply store_well_formed; exact Hwf |].
  unfold idle_slots_empty. rewrite !children_n_weight.
  rewrite (slots_store p ptr nd nd' Hwf Hnd).
  split; [apply Forall_insert; [exact Hidle | congruence] |].
  split; [apply Forall_insert; [exact Hpos | exact Hn] |].
  split.
  - rewrite (total_weight_insert _ _ nd nd'); [| apply deref_slot; assumption].
    unfold weight at 2. rewrite Hreal. reflexivity.
  - destruct ptr; reflexivity.
Qed.

Lemma on_child_inv p ptr (f : Node.t F -> option (Node.t F)) p' :
  Search.on_child p ptr f = Some p' ->
  exists nd nd', LowNode.deref p ptr = Some nd /\ Node.Realized nd = true /\
                 f nd = Some nd' /\ p' = LowNode.store p ptr nd'.
Proof.
  unfold Search.on_child. intros H.
  destruct (LowNode.deref p ptr) as [nd |]; [| discriminate]. cbn in H.
  destruct (Node.Realized nd) eqn:Hr; [| discriminate].
  destruct (f nd) as [nd' |] eqn:Hf; [| discriminate]. cbn in H.
  injection H as <-. eauto 10.
Qed.

Lemma InsertChildAt_inv p i p1 ptr :
  LowNode.InsertChildAt p i = Some (p1, ptr) ->
  exists es edge, LowNode.edges_ p = Some es /\ es !! Z.to_nat i = Some edge /\
                  0 <= i < LowNode.num_edges_ p.
Proof.
  unfold LowNode.InsertChildAt. intros H.
  destruct (LowNode.edges_ p) as [es |]; [| discriminate]. cbn in H.
  destruct (Z.leb_spec 0 i); [| discriminate].
  destruct (Z.ltb_spec i (LowNode.num_edges_ p)); [| discriminate]. cbn in H.
  destruct (es !! Z.to_nat i) as [edge |] eqn:Hedge; [| discriminate].
  exists es, edge. split; [reflexivity |]. split; [exact Hedge | lia].
Qed.

Lemma Allocate_searched p :
  LowNode.dynamic_children_ p = None -> well_formed (LowNode.Allocate p) ->
  searched p -> searched (LowNode.Allocate p).
Proof.
  intros Hnone Hwf' (Hwf & Hidle & Hpos & Hn). unfold searched, idle_slots_empty.
  rewrite children_n_weight, (Allocate_slots p Hnone), total_weight_app,
    total_weight_constructed, Z.add_0_r, <- children_n_weight.
  split; [exact Hwf' |]. split; [| split].
  - apply Forall_app. split; [exact Hidle |].
    apply Forall_replicate. reflexivity.
  - apply Forall_app. split; [exact Hpos |].
    apply Forall_replicate. reflexivity.
  - exact Hn.
Qed.

Lemma InsertChildAt_searched p i p1 ptr :
  searched p -> LowNode.InsertChildAt p i = Some (p1, ptr) -> searched p1.
Proof.
  intros Hs Hins. pose proof Hs as (Hwf & _).
  destruct (InsertChildAt_inv p i p1 ptr Hins) as (es & edge & Hes & Hedge & Hi).
  destruct (InsertChildAt_eq p i es edge Hwf Hes Hedge Hi)
    as (ptr' & nd0 & Hptr & Hnd0 & Hwf0 & Hcase & Heq).
  set (p0 := if (i <? 2) || (i <? LowNode.allocated_children_ p)
             then p else LowNode.Allocate p) in *.
  assert (Hs0 : searched p0).
  { destruct Hcase as [-> | (-> & Hnone & _)]; [exact Hs |].
    rewrite <- Hcase in Hwf0 || idtac. apply Allocate_searched; assumption. }
  rewrite Hins in Heq.
  destruct (Z.eqb_spec (Node.index_ nd0) Node.kMagicIndexConstructed) as [Hc | Hc].
  - injection Heq as -> ->.
    destruct Hs0 as (_ & Hidle0 & Hpos0 & Hn0).
    assert (Hnr : Node.Realized nd0 = false).
    { unfold Node.Realized. rewrite Hc. reflexivity. }
    assert (Hz : Node.n_ nd0 = 0).
    { pose proof (deref_slot p0 ptr' nd0 Hwf0 Hnd0) as Hlook.
      unfold idle_slots_empty in Hidle0. rewrite Forall_lookup in Hidle0.
      apply (Hidle0 _ _ Hlook Hnr). }
    assert (Hreal : Node.Realized (Node.assign nd0 edge i) = true).
    { unfold Node.Realized, Node.kMagicIndexAssigned. cbn. apply Z.ltb_lt.
      destruct Hwf as (_ & Hnum & _). lia. }
    destruct (store_child p0 ptr' nd0 (Node.assign nd0 edge i) Hwf0 Hidle0 Hpos0 Hnd0 Hreal)
      as (Hwf1 & Hidle1 & Hpos1 & Hsum1 & Hn1); [cbn; lia |].
    unfold searched. split; [exact Hwf1 |]. split; [exact Hidle1 |].
    split; [exact Hpos1 |]. rewrite Hn1, Hsum1, Hn0. cbn.
    unfold weight. rewrite Hnr, Hz. f_equal. lia.
  - destruct (Node.Realized nd0); [| discriminate]. injection Heq as -> ->. exact Hs0.
Qed.

Lemma apply_searched p (o : Search.op F) p' :
  searched p -> Search.apply p o = Some p' -> searched p'.
Proof.
  intros Hs Happ. destruct o as [i | ptr | ptr k | ptr v d m pv pd pm k]; cbn in Happ.
  - destruct (LowNode.InsertChildAt p i) as [[p1 ptr] |] eqn:Hins; [| discriminate].
    cbn in Happ. injection Happ as <-. eapply InsertChildAt_searched; eassumption.
  - destruct (on_child_inv _ _ _ _ Happ) as (nd & nd' & Hnd & Hreal & Hf & ->).
    destruct Hs as (Hwf & Hidle & Hpos & Hn).
    assert (Hpos_nd : 0 <= Node.n_ nd).
    { rewrite Forall_lookup in Hpos. eapply Hpos. apply deref_slot; eassumption. }
    unfold Node.TryStartScoreUpdate in Hf.
    destruct ((Node.n_ nd =? 0) && (Node.n_in_flight_ nd =? 1)); [discriminate |].
    injection Hf as <-.
    destruct (store_child p ptr nd (Node.set_n_in_flight nd (u32 (Node.n_in_flight_ nd + 1)))
                Hwf Hidle Hpos Hnd Hreal Hpos_nd) as (Hwf1 & Hidle1 & Hpos1 & Hsum1 & Hn1).
    unfold searched. split; [exact Hwf1 |]. split; [exact Hidle1 |].
    split; [exact Hpos1 |]. rewrite Hn1, Hsum1, Hn. cbn.
    unfold weight. rewrite Hreal. f_equal. lia.
  - destruct (on_child_inv _ _ _ _ Happ) as (nd & nd' & Hnd & Hreal & Hf & ->).
    destruct Hs as (Hwf & Hidle & Hpos & Hn).
    assert (Hpos_nd : 0 <= Node.n_ nd).
    { rewrite Forall_lookup in Hpos. eapply Hpos. apply deref_slot; eassumption. }
    injection Hf as <-.
    destruct (store_child p ptr nd (Node.CancelScoreUpdate nd k)
                Hwf Hidle Hpos Hnd Hreal Hpos_nd) as (Hwf1 & Hidle1 & Hpos1 & Hsum1 & Hn1).
    unfold searched. split; [exact Hwf1 |]. split; [exact Hidle1 |].
    split; [exact Hpos1 |]. rewrite Hn1, Hsum1, Hn. cbn.
    unfold weight. rewrite Hreal. f_equal. lia.
  - destruct (Search.on_child p ptr _) as [p1 |] eqn:Hchild; [| discriminate].
    cbn in Happ. injection Happ as <-.
    destruct (on_child_inv _ _ _ _ Hchild) as (nd & nd' & Hnd & Hreal & Hf & ->).
    destruct Hs as (Hwf & Hidle & Hpos & Hn).
    injection Hf as <-.
    assert (Hreal' : Node.Realized (Node.FinalizeScoreUpdate nd v d m k) = true)
      by exact Hreal.
    destruct (store_child p ptr nd (Node.FinalizeScoreUpdate nd v d m k)
                Hwf Hidle Hpos Hnd Hreal') as (Hwf1 & Hidle1 & Hpos1 & Hsum1 & Hn1).
    { cbn. apply u32_range. }
    unfold searched, idle_slots_empty.
    rewrite FinalizeScoreUpdate_slots, FinalizeScoreUpdate_children_n,
      FinalizeScoreUpdate_n.
    split; [apply FinalizeScoreUpdate_well_formed; exact Hwf1 |].
    split; [exact Hidle1 |]. split; [exact Hpos1 |].
    rewrite Hn1, Hsum1, Hn. unfold weight. rewrite Hreal.
    change (Node.n_ (Node.FinalizeScoreUpdate nd v d m k)) with (u32 (Node.n_ nd + k)).
    rewrite u32_add_l.
    replace (1 + (LowNode.children_n p - Node.n_ nd + u32 (Node.n_ nd + k)))
      with ((1 + LowNode.children_n p - Node.n_ nd) + u32 (Node.n_ nd + k)) by lia.
    rewrite u32_add_r. f_equal. lia.
Qed.

Lemma run_searched (ops : list (Search.op F)) : forall p p',
  searched p -> Search.run p ops = Some p' -> searched p'.
Proof.
  induction ops as [| o ops IH]; intros p p' Hs Hrun; cbn in Hrun.
  - injection Hrun as <-. exact Hs.
  - destruct (Search.apply p o) as [p1 |] eqn:Happ; [| discriminate]. cbn in Hrun.
    eapply IH; [| exact Hrun]. eapply apply_searched; eassumption.
Qed.

(** C3, amended: once the first visit of a position has been finalized, and
    whatever children are realized and whatever descents through realized
    children are started, cancelled or finalized afterwards, [p.n] is 1 plus
    the sum of [n] over the realized children and [GetChildrenVisits()] is
    that sum, in 32-bit unsigned arithmetic, and exactly so while the sum is
    below [2^32 - 1]. *)
Theorem children_visits_invariant p0 (v d m : F) (ops : list (Search.op F)) p :
  well_formed p0 -> unvisited p0 ->
  Search.run (Search.first_visit p0 v d m) ops = Some p ->
  LowNode.GetN p = u32 (1 + LowNode.children_n p) /\
  LowNode.GetChildrenVisits p = u32 (LowNode.children_n p) /\
  (LowNode.children_n p < 2 ^ 32 - 1 ->
     LowNode.GetN p = 1 + LowNode.children_n p /\
     LowNode.GetChildrenVisits p = LowNode.GetN p - 1 /\
     LowNode.GetChildrenVisits p = LowNode.children_n p).
Proof.
  intros Hwf Hun Hrun.
  destruct (run_searched ops _ p (first_visit_searched p0 v d m Hwf Hun) Hrun)
    as (_ & _ & Hpos & Hn).
  unfold LowNode.GetN, LowNode.GetChildrenVisits.
  assert (Hcv : u32 (LowNode.n_ p - 1) = u32 (LowNode.children_n p)).
  { rewrite Hn. replace (u32 (1 + LowNode.children_n p) - 1)
      with (u32 (1 + LowNode.children_n p) + (- 1)) by lia.
    rewrite u32_add_l. f_equal. lia. }
  split; [exact Hn |]. split; [exact Hcv |].
  intros Hlt. pose proof (total_weight_nonneg _ Hpos) as H0.
  rewrite <- children_n_weight in H0.
  rewrite Hcv, Hn, !u32_small by lia. lia.
Qed.

End Visits.

Lemma children_visits_invariant_S1 :
  well_formed S1_position /\ unvisited S1_position /\
  exists q,
    Search.run (Search.first_visit S1_position (1 # 5)%Q 0%Q 10%Q)
      [Search.Realize 1; Search.Start (InStatic 1);
       Search.Backup (InStatic 1) (1 # 5)%Q 0%Q 10%Q (1 # 5)%Q 0%Q 10%Q 1] = Some q /\
    LowNode.GetN q = 2 /\ LowNode.children_n q = 1 /\
    LowNode.GetChildrenVisits q = 1 /\
    LowNode.GetN q = u32 (1 + LowNode.children_n q).
Proof.
  pose proof S1_position_well_formed as Hwf.
  pose proof S1_position_unvisited as Hun.
  split; [exact Hwf |]. split; [exact Hun |].
  eexists. split; [reflexivity |].
  split; [reflexivity |]. split; [reflexivity |]. split; [reflexivity |].
  refine (proj1 (children_visits_invariant S1_position (1 # 5)%Q 0%Q 10%Q
                   [Search.Realize 1; Search.Start (InStatic 1);
                    Search.Backup (InStatic 1) (1 # 5)%Q 0%Q 10%Q (1 # 5)%Q 0%Q 10%Q 1]
                   _ Hwf Hun _)).
  reflexivity.
Defined.

(** ** The iterator over visited children *)

Section VisitedChildren.
Context {F : Type} {FO : FloatOps F}.
Implicit Types (p : LowNode.t F) (nd : Node.t F) (ptr : NodePtr).
Implicit Types (vs : list (option (NodePtr * Node.t F))).

(** *** The views of a position *)

Lemma views_length p : length (views p) = length (LowNode.slots p).
Proof. unfold views. now rewrite length_fmap, length_seq. Qed.

Lemma views_lookup p (k : nat) :
  (k < length (LowNode.slots p))%nat -> views p !! k = Some (view p (Z.of_nat k)).
Proof.
  intros Hk. unfold views. rewrite list_lookup_fmap.
  assert (Hseq : seq 0 (length (LowNode.slots p)) !! k = Some k)
    by (apply lookup_seq; split; [reflexivity | exact Hk]).
  now rewrite Hseq.
Qed.

Lemma GetChildAt_deref p i ptr :
  LowNode.GetChildAt p i = Some ptr ->
  exists nd, LowNode.deref p ptr = Some nd /\ Node.Realized nd = true.
Proof.
  unfold LowNode.GetChildAt. intros H.
  destruct (LowNode.FindPlaceOf p i) as [place |]; [| discriminate]. cbn in H.
  destruct (LowNode.deref p place) as [nd |] eqn:Hnd; [| discriminate]. cbn in H.
  destruct (Node.Realized nd) eqn:Hr; [| discriminate].
  injection H as <-. eauto.
Qed.

Lemma view_Some p i ptr nd :
  view p i = Some (ptr, nd) <->
  LowNode.GetChildAt p i = Some ptr /\ LowNode.deref p ptr = Some nd.
Proof.
  unfold view. split.
  - intros H. destruct (LowNode.GetChildAt p i) as [ptr' |]; [| discriminate]. cbn in H.
    destruct (LowNode.deref p ptr') as [nd' |] eqn:Hnd; [| discriminate]. cbn in H.
    injection H as <- <-. auto.
  - intros [-> Hnd]. cbn. rewrite Hnd. reflexivity.
Qed.

Lemma view_None p i : view p i = None <-> LowNode.GetChildAt p i = None.
Proof.
  unfold view. split.
  - intros H. destruct (LowNode.GetChildAt p i) as [ptr |] eqn:Hget; [| reflexivity].
    destruct (GetChildAt_deref p i ptr Hget) as (nd & Hnd & _).
    cbn in H. rewrite Hnd in H. discriminate.
  - intros ->. reflexivity.
Qed.

Lemma GetChildAt_outside p i :
  well_formed p -> Z.of_nat (length (LowNode.slots p)) <= i ->
  LowNode.GetChildAt p i = None.
Proof.
  intros Hwf Hi. destruct (well_formed_allocated p Hwf) as [Ha Hr].
  unfold LowNode.GetChildAt. rewrite FindPlaceOf_outside by lia. reflexivity.
Qed.

(** *** The loop on the list of views *)

Lemma first_end_ge vs : forall i, (i <= first_end i vs)%nat.
Proof.
  induction vs as [| v vs IH]; intros i; cbn; [lia |].
  destruct (ends_at i v); [lia |]. specialize (IH (S i)). lia.
Qed.

Lemma first_end_le vs : forall i, (first_end i vs <= i + length vs)%nat.
Proof.
  induction vs as [| v vs IH]; intros i; cbn; [lia |].
  destruct (ends_at i v); [lia |]. specialize (IH (S i)). lia.
Qed.

Lemma visited_of_cons (v : option (NodePtr * Node.t F)) vs :
  visited_of (v :: vs) =
  match v with
  | Some (ptr, nd) => if Node.n_ nd =? 0 then visited_of vs else ptr :: visited_of vs
  | None => visited_of vs
  end.
Proof.
  destruct v as [[ptr nd] |]; [| reflexivity].
  unfold visited_of. cbn. destruct (Node.n_ nd =? 0); reflexivity.
Qed.

Lemma visited_after_prefix vs : forall i,
  (1 <= i)%nat -> visited_after vs = visited_of (take (first_end i vs - i) vs).
Proof.
  induction vs as [| v vs IH]; intros i Hi; [now rewrite take_nil |].
  cbn [first_end visited_after]. unfold ends_at.
  assert (Hnz : negb (i =? 0)%nat = true).
  { apply negb_true_iff. apply Nat.eqb_neq. lia. }
  destruct v as [[ptr nd] |]; rewrite ?Hnz; cbn [andb].
  - destruct ((Node.n_ nd =? 0) && (Node.n_in_flight_ nd =? 0)) eqn:Hstop.
    + rewrite Nat.sub_diag. reflexivity.
    + pose proof (first_end_ge vs (S i)) as Hge.
      replace (first_end (S i) vs - i)%nat with (S (first_end (S i) vs - S i)) by lia.
      cbn [take]. rewrite visited_of_cons, <- (IH (S i)) by lia.
      reflexivity.
  - rewrite Nat.sub_diag. reflexivity.
Qed.

Lemma next_visited_None vs : forall i j,
  next_visited i vs = (None, j) -> visited_after vs = [].
Proof.
  induction vs as [| v vs IH]; intros i j H; [reflexivity |].
  cbn in *. destruct v as [[ptr nd] |]; [| reflexivity].
  destruct ((Node.n_ nd =? 0) && (Node.n_in_flight_ nd =? 0)); [reflexivity |].
  destruct (Node.n_ nd =? 0); [eapply IH; exact H | discriminate].
Qed.

Lemma next_visited_Some vs : forall i j ptr,
  next_visited i vs = (Some ptr, j) ->
  (i <= j)%nat /\ (j - i < length vs)%nat /\
  visited_after vs = ptr :: visited_after (drop (S (j - i)) vs).
Proof.
  induction vs as [| v vs IH]; intros i j ptr H; [discriminate |].
  cbn in H. destruct v as [[ptr' nd] |]; [| discriminate].
  cbn [visited_after].
  destruct ((Node.n_ nd =? 0) && (Node.n_in_flight_ nd =? 0)); [discriminate |].
  destruct (Node.n_ nd =? 0).
  - destruct (IH (S i) j ptr H) as (Hle & Hlt & Heq).
    split; [lia |]. split; [cbn; lia |].
    replace (j - i)%nat with (S (j - S i)) by lia. exact Heq.
  - injection H as <- <-. rewrite Nat.sub_diag. cbn. split; [lia |]. split; [lia |].
    rewrite drop_0. reflexivity.
Qed.

(** *** The loop of [operator++] *)

Lemma advance_next_visited p :
  well_formed p ->
  forall (fuel k : nat),
    (k < length (LowNode.slots p))%nat ->
    (length (LowNode.slots p) <= k + fuel)%nat ->
    VisitedNode_Iterator.advance fuel p (Z.of_nat k) =
    Some (fst (next_visited (S k) (drop (S k) (views p))),
          Z.of_nat (snd (next_visited (S k) (drop (S k) (views p))))).
Proof.
  intros Hwf. destruct (well_formed_allocated p Hwf) as [Ha Hr].
  induction fuel as [| fuel IH]; intros k Hk Hfuel; [lia |].
  cbn [VisitedNode_Iterator.advance].
  assert (Hidx : u16 (Z.of_nat k + 1) = Z.of_nat (S k))
    by (rewrite u16_small by lia; lia).
  rewrite Hidx.
  destruct (Nat.lt_ge_cases (S k) (length (LowNode.slots p))) as [Hin | Hout].
  - rewrite (drop_S (views p) (view p (Z.of_nat (S k))) (S k))
      by (apply views_lookup; exact Hin).
    cbn [next_visited].
    destruct (view p (Z.of_nat (S k))) as [[ptr nd] |] eqn:Hview.
    + apply view_Some in Hview as [Hget Hnd]. rewrite Hget, Hnd. cbn.
      unfold Node.GetN, Node.GetNInFlight.
      destruct ((Node.n_ nd =? 0) && (Node.n_in_flight_ nd =? 0)); [reflexivity |].
      destruct (Node.n_ nd =? 0); [| reflexivity].
      apply IH; lia.
    + apply view_None in Hview. rewrite Hview. reflexivity.
  - rewrite drop_ge by (rewrite views_length; lia). cbn.
    rewrite GetChildAt_outside by (try exact Hwf; lia). reflexivity.
Qed.

Lemma next_at p mode (k : nat) (node_ptr : option NodePtr) (count : Z) :
  well_formed p -> (k < length (LowNode.slots p))%nat ->
  VisitedNode_Iterator.next mode
    {| VisitedNode_Iterator.parent_node_ := Some p;
       VisitedNode_Iterator.node_ptr_ := node_ptr;
       VisitedNode_Iterator.current_idx_ := Z.of_nat k;
       VisitedNode_Iterator.total_count_ := count |} =
  Some {| VisitedNode_Iterator.parent_node_ := Some p;
          VisitedNode_Iterator.node_ptr_ :=
            fst (next_visited (S k) (drop (S k) (views p)));
          VisitedNode_Iterator.current_idx_ :=
            Z.of_nat (snd (next_visited (S k) (drop (S k) (views p))));
          VisitedNode_Iterator.total_count_ := count |}.
Proof.
  intros Hwf Hk. unfold VisitedNode_Iterator.next.
  cbn [VisitedNode_Iterator.parent_node_ VisitedNode_Iterator.current_idx_
       VisitedNode_Iterator.total_count_ non_null].
  assert (Hassert : assert_ mode true = Some tt) by (destruct mode; reflexivity).
  rewrite Hassert. cbn [mbind option_bind].
  rewrite (advance_next_visited p Hwf) by (unfold VisitedNode_Iterator.rounds; lia).
  reflexivity.
Qed.

Lemma range_from_visited_after p mode :
  well_formed p ->
  forall (fuel k : nat) ptr count,
    (k < length (LowNode.slots p))%nat ->
    (length (LowNode.slots p) <= k + fuel)%nat ->
    VisitedNode_Iterator.range_from fuel mode
      {| VisitedNode_Iterator.parent_node_ := Some p;
         VisitedNode_Iterator.node_ptr_ := Some ptr;
         VisitedNode_Iterator.current_idx_ := Z.of_nat k;
         VisitedNode_Iterator.total_count_ := count |} =
    Some (ptr :: visited_after (drop (S k) (views p))).
Proof.
  intros Hwf. induction fuel as [| fuel IH]; intros k ptr count Hk Hfuel; [lia |].
  cbn [VisitedNode_Iterator.range_from VisitedNode_Iterator.get
       VisitedNode_Iterator.node_ptr_].
  rewrite (next_at p mode k (Some ptr) count Hwf Hk). cbn [mbind option_bind].
  destruct (next_visited (S k) (drop (S k) (views p))) as [[ptr' |] j] eqn:Hnext;
    cbn [fst snd].
  - destruct (next_visited_Some _ _ _ _ Hnext) as (Hle & Hlt & Heq).
    rewrite length_drop, views_length in Hlt.
    rewrite (IH j ptr' count) by lia. cbn [mbind option_bind].
    rewrite Heq, drop_drop.
    replace (S k + S (j - S k))%nat with (S j) by lia. reflexivity.
  - rewrite (next_visited_None _ _ _ Hnext).
    destruct fuel; reflexivity.
Qed.

(** The loop over the visited children ends, and it meets the children with
    visits up to the first index at which the iteration ends. *)
Lemma VisitedNodes_visited_prefix p mode :
  well_formed p -> VisitedNode_Iterator.VisitedNodes mode p = Some (visited_prefix p).
Proof.
  intros Hwf. destruct (well_formed_allocated p Hwf) as [Ha Hr].
  assert (Hlen : (0 < length (LowNode.slots p))%nat) by lia.
  unfold VisitedNode_Iterator.VisitedNodes, VisitedNode_Iterator.begin, visited_prefix.
  cbn [VisitedNode_Iterator.node_ptr_].
  pose proof (views_lookup p 0 Hlen) as H0. change (Z.of_nat 0) with 0 in H0.
  pose proof (drop_S _ _ _ H0) as Hdrop. rewrite drop_0 in Hdrop.
  rewrite Hdrop. cbn [first_end]. unfold ends_at at 1.
  destruct (view p 0) as [[ptr nd] |] eqn:Hview.
  - apply view_Some in Hview as [Hget Hnd]. rewrite Hget. cbn [mbind option_bind].
    rewrite Hnd. cbn [mbind option_bind]. cbn [Nat.eqb negb andb].
    pose proof (first_end_ge (drop 1 (views p)) 1) as Hge.
    replace (first_end 1 (drop 1 (views p)))
      with (S (first_end 1 (drop 1 (views p)) - 1)) by lia.
    cbn [take]. rewrite visited_of_cons.
    rewrite <- (visited_after_prefix (drop 1 (views p)) 1) by lia.
    unfold Node.GetN. destruct (Node.n_ nd =? 0).
    + rewrite (next_at p mode 0 (Some ptr) _ Hwf Hlen). cbn [mbind option_bind].
      destruct (next_visited 1 (drop 1 (views p))) as [[ptr' |] j] eqn:Hnext;
        cbn [fst snd].
      * destruct (next_visited_Some _ _ _ _ Hnext) as (Hle & Hlt & Heq).
        rewrite length_drop, views_length in Hlt.
        rewrite (range_from_visited_after p mode Hwf)
          by (unfold VisitedNode_Iterator.rounds; lia).
        rewrite Heq, drop_drop.
        replace (1 + S (j - 1))%nat with (S j) by lia. reflexivity.
      * rewrite (next_visited_None _ _ _ Hnext). reflexivity.
    + change 0 with (Z.of_nat 0). cbn [mbind option_bind].
      rewrite (range_from_visited_after p mode Hwf)
        by (unfold VisitedNode_Iterator.rounds; lia).
      reflexivity.
  - apply view_None in Hview. rewrite Hview. reflexivity.
Qed.

End VisitedChildren.

Section VisitedChildrenSpec.
Context {F : Type} {FO : FloatOps F}.
Implicit Types (p : LowNode.t F) (nd : Node.t F) (ptr : NodePtr).

Lemma visited_of_take p (m : nat) ptr :
  well_formed p -> (m <= length (views p))%nat ->
  ptr ∈ visited_of (take m (views p)) <->
  exists (k : nat) nd,
    (k < m)%nat /\ LowNode.GetChildAt p (Z.of_nat k) = Some ptr /\
    LowNode.deref p ptr = Some nd /\ Node.n_ nd <> 0.
Proof.
  intros Hwf Hm. unfold visited_of. rewrite list_elem_of_omap. split.
  - intros (v & Hv & Hf). apply list_elem_of_lookup in Hv as [k Hk].
    rewrite lookup_take in Hk. destruct (decide (k < m)%nat) as [Hlt |]; [| discriminate].
    rewrite views_lookup in Hk by (rewrite <- views_length; lia).
    injection Hk as <-.
    destruct (view p (Z.of_nat k)) as [[ptr' nd] |] eqn:Hview; [| discriminate].
    destruct (Z.eqb_spec (Node.n_ nd) 0) as [| Hn]; [discriminate |].
    injection Hf as <-. apply view_Some in Hview as [Hget Hnd].
    exists k, nd. auto.
  - intros (k & nd & Hlt & Hget & Hnd & Hn).
    exists (Some (ptr, nd)). split.
    + apply list_elem_of_lookup. exists k. rewrite lookup_take.
      destruct (decide (k < m)%nat); [| lia].
      rewrite views_lookup by (rewrite <- views_length; lia).
      f_equal. apply view_Some. auto.
    + destruct (Z.eqb_spec (Node.n_ nd) 0); [contradiction | reflexivity].
Qed.

(** C6, amended: the loop over the visited children ends; it meets, in
    index order, exactly the realized children with [n > 0] at the indices
    before the first index at which the iteration ends, which is the first
    index without a realized child or the first index other than 0 whose
    child has [n == 0] and [n_in_flight == 0]; when every child with visits
    lies before that index, these are exactly the realized children with
    [n > 0]. *)
Theorem VisitedNodes_spec mode p :
  well_formed p ->
  VisitedNode_Iterator.VisitedNodes mode p = Some (visited_prefix p) /\
  (forall ptr,
     ptr ∈ visited_prefix p <->
     exists (k : nat) nd,
       (k < first_end 0 (views p))%nat /\
       LowNode.GetChildAt p (Z.of_nat k) = Some ptr /\
       LowNode.deref p ptr = Some nd /\ Node.GetN nd <> 0) /\
  (visits_form_prefix p ->
   forall ptr,
     ptr ∈ visited_prefix p <->
     exists (i : Z) nd,
       0 <= i /\ LowNode.GetChildAt p i = Some ptr /\
       LowNode.deref p ptr = Some nd /\ Node.GetN nd <> 0).
Proof.
  intros Hwf. pose proof (first_end_le (views p) 0) as Hle. cbn in Hle.
  split; [apply VisitedNodes_visited_prefix; exact Hwf |].
  split; [intros ptr; apply visited_of_take; assumption |].
  intros Hprefix ptr. unfold visited_prefix.
  rewrite (visited_of_take p _ ptr Hwf Hle). split.
  - intros (k & nd & _ & Hget & Hnd & Hn). exists (Z.of_nat k), nd.
    split; [lia | auto].
  - intros (i & nd & Hi & Hget & Hnd & Hn).
    assert (Hlt : (Z.to_nat i < length (views p))%nat).
    { rewrite views_length.
      destruct (Nat.lt_ge_cases (Z.to_nat i) (length (LowNode.slots p))) as [H | H];
        [exact H |].
      rewrite (GetChildAt_outside p i Hwf) in Hget by lia. discriminate. }
    assert (Hall : ptr ∈ visited_of (take (length (views p)) (views p))).
    { apply (visited_of_take p _ ptr Hwf); [lia |].
      exists (Z.to_nat i), nd. rewrite Z2Nat.id by lia. auto. }
    rewrite firstn_all in Hall.
    rewrite <- (take_drop (first_end 0 (views p)) (views p)) in Hall.
    unfold visited_of in Hall. rewrite omap_app in Hall.
    unfold visits_form_prefix, visited_of in Hprefix.
    rewrite Hprefix, app_nil_r in Hall.
    apply (visited_of_take p _ ptr Hwf Hle) in Hall. exact Hall.
Qed.

End VisitedChildrenSpec.

(** The property as the specification states it fails on positions with
    sorted edges: in scenario
    S1 child 1 is realized and has a visit, but index 0 has no realized
    child and the loop meets nothing; and when child 0 is realized with
    [n == 0] and [n_in_flight == 0], the loop does not end there but goes
    on to child 1. *)
Lemma VisitedNodes_misses_child :
  (is_descending (default [] (LowNode.edges_ gap_position)) = true /\
   (exists nd, LowNode.GetChildAt gap_position 1 = Some (InStatic 1) /\
               LowNode.deref gap_position (InStatic 1) = Some nd /\
               Node.GetN nd = 1) /\
   VisitedNode_Iterator.VisitedNodes Debug gap_position = Some []) /\
  (is_descending (default [] (LowNode.edges_ idle_first_position)) = true /\
   (exists nd, LowNode.GetChildAt idle_first_position 0 = Some (InStatic 0) /\
               LowNode.deref idle_first_position (InStatic 0) = Some nd /\
               Node.GetN nd = 0 /\ Node.GetNInFlight nd = 0) /\
   VisitedNode_Iterator.VisitedNodes Debug idle_first_position = Some [InStatic 1]).
Proof.
  split.
  - split; [reflexivity |]. split; [| reflexivity].
    eexists. split; [reflexivity |]. split; reflexivity.
  - split; [reflexivity |]. split; [| reflexivity].
    eexists. split; [reflexivity |]. split; [reflexivity |]. split; reflexivity.
Qed.

Lemma prefix_position_well_formed : well_formed prefix_position.
Proof.
  unfold well_formed. split; [reflexivity |].
  split; [split; [discriminate | reflexivity] |].
  split; [| reflexivity]. eexists. split; reflexivity.
Qed.

Lemma VisitedNodes_spec_prefix :
  well_formed prefix_position /\ visits_form_prefix prefix_position /\
  VisitedNode_Iterator.VisitedNodes Debug prefix_position = Some [InStatic 0] /\
  (InStatic 0 ∈ visited_prefix prefix_position <->
   exists (i : Z) nd,
     0 <= i /\ LowNode.GetChildAt prefix_position i = Some (InStatic 0) /\
     LowNode.deref prefix_position (InStatic 0) = Some nd /\ Node.GetN nd <> 0).
Proof.
  pose proof prefix_position_well_formed as Hwf.
  assert (Hprefix : visits_form_prefix prefix_position) by reflexivity.
  split; [exact Hwf |]. split; [exact Hprefix |]. split; [reflexivity |].
  apply (proj2 (proj2 (VisitedNodes_spec Debug prefix_position Hwf)) Hprefix).
Defined.

(** * Further properties of the code *)

(** ** Running sums *)

Lemma u64_add_l x y : u64 (u64 x + y) = u64 (x + y).
Proof. unfold u64. now rewrite Zplus_mod_idemp_l. Qed.

Lemma u64_small x : 0 <= x < 2 ^ 64 -> u64 x = x.
Proof. intros H. unfold u64. now apply Z.mod_small. Qed.

(** X1: [RunningSumsBefore(init, vals)] has one entry more than [vals], and
    its entry [i] is [init] plus the first [i] values, as a [size_t]; so it
    starts with [init] and ends with the total. *)
Theorem RunningSumsBefore_prefix_sums (init : Z) (vals : list Z) (i : nat) :
  0 <= init < 2 ^ 64 -> (i <= length vals)%nat ->
  length (RunningSumsBefore init vals) = S (length vals) /\
  RunningSumsBefore init vals !! i = Some (u64 (init + sum_list (take i vals))).
Proof.
  revert init i. induction vals as [| v rest IH]; intros init i Hinit Hi.
  - cbn in Hi. assert (i = 0%nat) as -> by lia. cbn.
    split; [reflexivity |]. rewrite Z.add_0_r, u64_small by exact Hinit. reflexivity.
  - cbn [RunningSumsBefore length].
    assert (Hr : 0 <= u64 (init + v) < 2 ^ 64) by (apply Z.mod_pos_bound; lia).
    destruct i as [| i].
    + destruct (IH (u64 (init + v)) 0%nat Hr) as [Hlen _]; [lia |].
      split; [now rewrite Hlen |]. cbn.
      rewrite Z.add_0_r, u64_small by exact Hinit. reflexivity.
    + cbn in Hi. destruct (IH (u64 (init + v)) i Hr) as [Hlen Hlook]; [lia |].
      split; [now rewrite Hlen |].
      change ((init :: RunningSumsBefore (u64 (init + v)) rest) !! S i)
        with (RunningSumsBefore (u64 (init + v)) rest !! i).
      change (sum_list (take (S i) (v :: rest))) with (v + sum_list (take i rest)).
      rewrite Hlook, u64_add_l. do 2 f_equal. lia.
Qed.

Lemma RunningSumsBefore_prefix_sums_example :
  0 <= 2 < 2 ^ 64 /\ (2 <= length [3; 4])%nat /\
  RunningSumsBefore 2 [3; 4] !! 2%nat = Some 9.
Proof.
  assert (H0 : 0 <= 2 < 2 ^ 64) by lia.
  assert (H1 : (2 <= length [3; 4])%nat) by (cbn; lia).
  split; [exact H0 |]. split; [exact H1 |].
  exact (proj2 (RunningSumsBefore_prefix_sums 2 [3; 4] 2 H0 H1)).
Defined.

(** X2: [RunningSumsAfter(init, vals)] is [RunningSumsBefore(init, vals)]
    without its first entry: the two tables describe the same boundaries,
    the ends of one array being the starts of the next. *)
Theorem RunningSumsAfter_shifts_Before (init : Z) (vals : list Z) :
  RunningSumsAfter init vals = drop 1 (RunningSumsBefore init vals) /\
  length (RunningSumsAfter init vals) = length vals /\
  (forall i : nat,
     RunningSumsAfter init vals !! i = RunningSumsBefore init vals !! S i).
Proof.
  assert (Heq : forall s, RunningSumsAfter s vals = drop 1 (RunningSumsBefore s vals)).
  { induction vals as [| v rest IH]; intros s; [reflexivity |].
    cbn [RunningSumsAfter RunningSumsBefore drop]. rewrite IH.
    destruct rest; reflexivity. }
  split; [apply Heq |]. split.
  - clear Heq. revert init.
    induction vals as [| v rest IH]; intros init; [reflexivity |].
    cbn [RunningSumsAfter length]. now rewrite IH.
  - intros i. rewrite Heq, lookup_drop. reflexivity.
Qed.

(** The child arrays of a low node: the one dynamic array starts where the
    inline array ends. *)
Lemma child_array_layout :
  kDynamicChildrenArrayStarts = [LowNode.kStaticChildrenArraySize] /\
  kDynamicChildrenArrayEnds = [] /\
  Z.of_nat (length kDynamicChildrenArrayStarts) = LowNode.kDynamicChildrenArrayCount.
Proof. repeat split. Qed.

(** ** The iterator over all edges *)

Section AllEdges.
Context {F : Type} {FO : FloatOps F}.
Implicit Types (p : LowNode.t F) (nd : Node.t F) (ptr : NodePtr).

Lemma begin_at_edge p :
  LowNode.edges_ p <> None -> Edge_Iterator.begin (Some p) = at_edge p 0.
Proof.
  intros He. unfold Edge_Iterator.begin, LowNode.GetEdges, at_edge.
  destruct (LowNode.edges_ p); [reflexivity | contradiction].
Qed.

Lemma next_at_edge mode p (k : nat) :
  Z.of_nat k + 1 < 2 ^ 16 ->
  Edge_Iterator.next mode (at_edge p k) =
  Some (if Z.of_nat k + 1 =? LowNode.num_edges_ p
        then {| Edge_Iterator.edge_ := None;
                Edge_Iterator.node_ := LowNode.GetChildAt p (Z.of_nat k);
                Edge_Iterator.parent_node_ := Some p;
                Edge_Iterator.current_idx_ := Z.of_nat k + 1;
                Edge_Iterator.total_count_ := LowNode.GetNumEdges p |}
        else at_edge p (S k)).
Proof.
  intros Hk. unfold Edge_Iterator.next, at_edge.
  cbn [Edge_Iterator.parent_node_ Edge_Iterator.current_idx_
       Edge_Iterator.total_count_ Edge_Iterator.edge_ Edge_Iterator.node_ non_null].
  assert (Hassert : assert_ mode true = Some tt) by (destruct mode; reflexivity).
  rewrite Hassert. cbn [mbind option_bind].
  rewrite u16_small by lia. unfold LowNode.GetNumEdges.
  destruct (Z.of_nat k + 1 =? LowNode.num_edges_ p); [reflexivity |].
  replace (Z.of_nat (S k)) with (Z.of_nat k + 1) by lia. reflexivity.
Qed.

Lemma range_from_at_edge mode p :
  forall (fuel k : nat),
    (k < Z.to_nat (LowNode.num_edges_ p))%nat ->
    LowNode.num_edges_ p < 2 ^ 16 ->
    (Z.to_nat (LowNode.num_edges_ p) - k <= fuel)%nat ->
    Edge_Iterator.range_from fuel mode (at_edge p k) =
    Some ((fun i => (i, LowNode.GetChildAt p (Z.of_nat i)))
            <$> seq k (Z.to_nat (LowNode.num_edges_ p) - k)).
Proof.
  induction fuel as [| fuel IH]; intros k Hk Hn Hfuel; [lia |].
  cbn [Edge_Iterator.range_from]. unfold at_edge at 1. cbn [Edge_Iterator.edge_].
  rewrite next_at_edge by lia. cbn [mbind option_bind].
  destruct (Z.eqb_spec (Z.of_nat k + 1) (LowNode.num_edges_ p)) as [Hlast | Hmore].
  - replace (Z.to_nat (LowNode.num_edges_ p) - k)%nat with 1%nat by lia.
    destruct fuel; reflexivity.
  - rewrite IH by lia. cbn [mbind option_bind].
    replace (Z.to_nat (LowNode.num_edges_ p) - k)%nat
      with (S (Z.to_nat (LowNode.num_edges_ p) - S k)) by lia.
    reflexivity.
Qed.

(** X3: a loop over [Edges()] of a position that has edges ends, and it
    meets every edge index below [num_edges] exactly once, in stored order,
    each with the realized child at that index or null. *)
Theorem Edges_meets_every_edge mode p :
  LowNode.edges_ p <> None -> 1 <= LowNode.num_edges_ p < 2 ^ 16 ->
  Edge_Iterator.Edges mode (Some p) = Some (edges_with_children p) /\
  length (edges_with_children p) = Z.to_nat (LowNode.num_edges_ p).
Proof.
  intros He Hn. unfold Edge_Iterator.Edges. rewrite begin_at_edge by exact He.
  rewrite range_from_at_edge by (unfold Edge_Iterator.rounds; lia).
  unfold edges_with_children. rewrite Nat.sub_0_r.
  split; [reflexivity |]. now rewrite length_fmap, length_seq.
Qed.

Lemma GetChildAt_no_children p (i : Z) :
  LowNode.children p = [] -> LowNode.GetChildAt p i = None.
Proof.
  intros Hnone. unfold LowNode.GetChildAt.
  destruct (LowNode.FindPlaceOf p i) as [ptr |] eqn:Hptr; [| reflexivity].
  cbn [mbind option_bind].
  destruct (LowNode.deref p ptr) as [nd |] eqn:Hnd; [| reflexivity].
  cbn [mbind option_bind].
  destruct (Node.Realized nd) eqn:Hreal; [| reflexivity].
  exfalso. eapply (filter_nil_not_elem_of _ _ nd Hnone); [exact Hreal |].
  unfold LowNode.slots. apply elem_of_app.
  destruct ptr as [k | k]; cbn in Hnd.
  - left. apply list_elem_of_lookup. eauto.
  - right. destruct (LowNode.dynamic_children_ p) as [arr |]; [| discriminate].
    cbn in Hnd |- *. apply list_elem_of_lookup. eauto.
Qed.

(** X4: for a node without low node, [Edges()] and [VisitedNodes()] are
    empty ranges.  For a low node without edge array, [Edges()] is an empty
    range whatever its child arrays hold, and [VisitedNodes()], which never
    looks at the edges, is an empty range when no child is realized, as
    [LowNode()] leaves it.  In each case the loop body is never entered.
    Incrementing an iterator that has no parent fails the assertion of a
    debug build. *)
Theorem ranges_without_edges mode p :
  LowNode.edges_ p = None ->
  Edge_Iterator.Edges mode (Some p) = Some [] /\
  (LowNode.children p = [] ->
   VisitedNode_Iterator.VisitedNodes mode p = Some []) /\
  VisitedNode_Iterator.VisitedNodes (F := F) mode LowNode.empty = Some [] /\
  Edge_Iterator.Edges (F := F) mode None = Some [] /\
  (it ← VisitedNode_Iterator.begin (F := F) mode None;
   VisitedNode_Iterator.range_from 1 mode it) = Some [] /\
  Edge_Iterator.next (F := F) Debug (Edge_Iterator.begin None) = None /\
  (it ← VisitedNode_Iterator.begin (F := F) Debug None;
   VisitedNode_Iterator.next Debug it) = None.
Proof.
  intros He.
  assert (Hvisited : forall q : LowNode.t F,
            LowNode.children q = [] ->
            VisitedNode_Iterator.VisitedNodes mode q = Some []).
  { intros q Hnone.
    unfold VisitedNode_Iterator.VisitedNodes, VisitedNode_Iterator.begin.
    cbn [VisitedNode_Iterator.node_ptr_].
    rewrite (GetChildAt_no_children q 0 Hnone). reflexivity. }
  split.
  { unfold Edge_Iterator.Edges, Edge_Iterator.begin, LowNode.GetEdges.
    rewrite He. reflexivity. }
  split; [apply Hvisited |].
  split; [apply Hvisited; reflexivity |].
  repeat split.
Qed.

(** *** A position whose edge array is allocated and empty *)

Lemma next_n_no_edge mode p :
  LowNode.edges_ p <> None -> LowNode.num_edges_ p = 0 ->
  forall (n k : nat),
    Z.of_nat (k + n) < 2 ^ 16 ->
    Edge_Iterator.next_n mode n (at_edge p k) = Some (at_edge p (k + n)).
Proof.
  intros He Hn. induction n as [| n IH]; intros k Hk.
  - rewrite Nat.add_0_r. reflexivity.
  - cbn [Edge_Iterator.next_n]. rewrite next_at_edge by lia. cbn [mbind option_bind].
    destruct (Z.eqb_spec (Z.of_nat k + 1) (LowNode.num_edges_ p)) as [Heq | _]; [lia |].
    rewrite IH by lia. do 2 f_equal. lia.
Qed.

(** X5: when the edge array of a position is allocated but [num_edges] is
    0, [Edges()] is not an empty range: "begin()" differs from "end()", and
    the iterator stays different from "end()" through [2^16 - 1] increments,
    until [current_idx_] has wrapped around to 0; [HasChildren()] is the
    test that tells such a position apart. *)
Theorem Edges_of_empty_array_is_not_empty mode p (n : Z) :
  LowNode.edges_ p <> None -> LowNode.num_edges_ p = 0 ->
  0 <= n < 2 ^ 16 ->
  LowNode.HasChildren p = false /\
  Edge_Iterator.eqb (Edge_Iterator.begin (Some p)) Edge_Iterator.end_ = false /\
  (exists it, Edge_Iterator.next_n mode (Z.to_nat n) (Edge_Iterator.begin (Some p))
              = Some it /\
              Edge_Iterator.to_bool it = true /\
              Edge_Iterator.current_idx_ it = n) /\
  (exists it, Edge_Iterator.next_n mode (Z.to_nat (2 ^ 16)) (Edge_Iterator.begin (Some p))
              = Some it /\
              Edge_Iterator.to_bool it = false).
Proof.
  intros He Hn Hr. rewrite begin_at_edge by exact He.
  split; [unfold LowNode.HasChildren; now rewrite Hn |].
  split; [reflexivity |]. split.
  - exists (at_edge p (Z.to_nat n)).
    rewrite (next_n_no_edge mode p He Hn) by lia.
    split; [reflexivity |]. split; [reflexivity |]. cbn. lia.
  - replace (Z.to_nat (2 ^ 16)) with (Z.to_nat (2 ^ 16 - 1) + 1)%nat by lia.
    assert (Hsplit : forall a b (it : Edge_Iterator.t F),
               Edge_Iterator.next_n mode (a + b) it =
               Edge_Iterator.next_n mode a it ≫= Edge_Iterator.next_n mode b).
    { induction a as [| a IH]; intros b it; [reflexivity |].
      cbn [Nat.add Edge_Iterator.next_n].
      destruct (Edge_Iterator.next mode it) as [it' |]; [| reflexivity].
      cbn [mbind option_bind]. apply IH. }
    rewrite Hsplit, (next_n_no_edge mode p He Hn) by lia.
    cbn [mbind option_bind Edge_Iterator.next_n].
    replace (0 + Z.to_nat (2 ^ 16 - 1))%nat with (Z.to_nat 65535) by lia.
    unfold Edge_Iterator.next, at_edge.
    cbn [Edge_Iterator.parent_node_ Edge_Iterator.current_idx_
         Edge_Iterator.total_count_ Edge_Iterator.edge_ Edge_Iterator.node_ non_null].
    assert (Hassert : assert_ mode true = Some tt) by (destruct mode; reflexivity).
    rewrite Hassert. cbn [mbind option_bind].
    rewrite Z2Nat.id by lia. unfold LowNode.GetNumEdges. rewrite Hn.
    change (u16 (65535 + 1) =? 0) with true. cbn [mbind option_bind].
    eexists. split; reflexivity.
Qed.

End AllEdges.

Lemma Edges_meets_every_edge_S1 :
  LowNode.edges_ gap_position <> None /\
  1 <= LowNode.num_edges_ gap_position < 2 ^ 16 /\
  Edge_Iterator.Edges Debug (Some gap_position) =
  Some [(0%nat, None); (1%nat, Some (InStatic 1)); (2%nat, None)].
Proof.
  assert (He : LowNode.edges_ gap_position <> None) by discriminate.
  assert (Hn : 1 <= LowNode.num_edges_ gap_position < 2 ^ 16)
    by (change (1 <= 3 < 2 ^ 16); lia).
  split; [exact He |]. split; [exact Hn |].
  exact (proj1 (Edges_meets_every_edge Debug gap_position He Hn)).
Defined.

Lemma ranges_without_edges_empty :
  LowNode.edges_ (LowNode.empty (F := Q)) = None /\
  LowNode.children (LowNode.empty (F := Q)) = [] /\
  Edge_Iterator.Edges Debug (Some (LowNode.empty (F := Q))) = Some [] /\
  VisitedNode_Iterator.VisitedNodes Debug (LowNode.empty (F := Q)) = Some [].
Proof.
  pose proof (ranges_without_edges Debug (LowNode.empty (F := Q)) eq_refl)
    as (Hedges & Hvisited & _).
  split; [reflexivity |]. split; [reflexivity |].
  split; [exact Hedges | exact (Hvisited eq_refl)].
Defined.

Lemma Edges_of_empty_array_no_edge_position :
  LowNode.edges_ no_edge_position <> None /\
  LowNode.num_edges_ no_edge_position = 0 /\ 0 <= 7 < 2 ^ 16 /\
  Edge_Iterator.eqb (Edge_Iterator.begin (Some no_edge_position)) Edge_Iterator.end_
    = false.
Proof.
  assert (He : LowNode.edges_ no_edge_position <> None) by discriminate.
  assert (Hn : LowNode.num_edges_ no_edge_position = 0) by reflexivity.
  assert (Hr : 0 <= 7 < 2 ^ 16) by lia.
  split; [exact He |]. split; [exact Hn |]. split; [exact Hr |].
  exact (proj1 (proj2 (Edges_of_empty_array_is_not_empty Debug no_edge_position 7
                         He Hn Hr))).
Defined.

(** ** Spawning a node from the iterator *)

Section Spawning.
Context {F : Type} {FO : FloatOps F}.
Implicit Types (p : LowNode.t F) (nd : Node.t F) (ptr : NodePtr).

Lemma deref_store_ne p ptr ptr' nd :
  ptr <> ptr' -> LowNode.deref (LowNode.store p ptr nd) ptr' = LowNode.deref p ptr'.
Proof.
  intros Hne. destruct ptr as [k | k], ptr' as [k' | k']; cbn; try reflexivity.
  - apply list_lookup_insert_ne. congruence.
  - destruct (LowNode.dynamic_children_ p) as [arr |]; [| reflexivity]. cbn.
    apply list_lookup_insert_ne. congruence.
Qed.

Lemma FindPlaceOf_inj p i j ptr :
  0 <= i -> 0 <= j ->
  LowNode.FindPlaceOf p i = Some ptr -> LowNode.FindPlaceOf p j = Some ptr -> i = j.
Proof.
  unfold LowNode.FindPlaceOf, LowNode.kStaticChildrenArraySize. intros Hi Hj.
  destruct (Z.ltb_spec i 2); destruct (Z.ltb_spec j 2);
    repeat (destruct (_ <? _)); intros H1 H2; simplify_eq; lia.
Qed.

Lemma view_store_ne p i j ptr nd :
  0 <= i -> 0 <= j -> j <> i -> LowNode.FindPlaceOf p i = Some ptr ->
  view (LowNode.store p ptr nd) j = view p j.
Proof.
  intros Hi Hj Hne Hptr. unfold view, LowNode.GetChildAt.
  rewrite FindPlaceOf_store.
  destruct (LowNode.FindPlaceOf p j) as [place |] eqn:Hplace; [| reflexivity].
  assert (Hdiff : ptr <> place).
  { intros ->. apply Hne. eapply FindPlaceOf_inj; eassumption. }
  cbn [mbind option_bind]. rewrite (deref_store_ne p ptr place nd Hdiff).
  destruct (LowNode.deref p place) as [nd' |]; [| reflexivity]. cbn [mbind option_bind].
  destruct (Node.Realized nd'); [| reflexivity]. cbn [mbind option_bind].
  now rewrite (deref_store_ne p ptr place nd Hdiff).
Qed.

Lemma view_Allocate p j :
  well_formed p -> LowNode.dynamic_children_ p = None -> 0 <= j ->
  view (LowNode.Allocate p) j = view p j.
Proof.
  intros (Hs & Hn & He & Hd) Hnone Hj. rewrite Hnone in Hd.
  unfold view, LowNode.GetChildAt, LowNode.FindPlaceOf, LowNode.kStaticChildrenArraySize.
  destruct (Z.ltb_spec j 2) as [H2 | H2].
  { cbn [mbind option_bind].
    change (LowNode.deref (LowNode.Allocate p) (InStatic (Z.to_nat j)))
      with (LowNode.deref p (InStatic (Z.to_nat j))).
    destruct (LowNode.deref p (InStatic (Z.to_nat j))) as [nd |]; [| reflexivity].
    cbn [mbind option_bind]. destruct (Node.Realized nd); reflexivity. }
  rewrite Hd. destruct (Z.ltb_spec j 2) as [| _]; [lia |].
  cbn [LowNode.allocated_children_ LowNode.Allocate LowNode.set_children].
  destruct (j <? LowNode.num_edges_ p); [| reflexivity].
  cbn [mbind option_bind LowNode.deref LowNode.dynamic_children_
       LowNode.Allocate LowNode.set_children].
  destruct (replicate _ _ !! _) as [nd |] eqn:Hnd; [| reflexivity].
  apply lookup_replicate in Hnd as [-> _]. reflexivity.
Qed.

(** Realizing the child at [i] leaves every other index as it was. *)
Lemma InsertChildAt_frame p i p1 ptr :
  well_formed p -> LowNode.InsertChildAt p i = Some (p1, ptr) ->
  LowNode.num_edges_ p1 = LowNode.num_edges_ p /\
  LowNode.edges_ p1 = LowNode.edges_ p /\
  forall j, 0 <= j -> j <> i -> view p1 j = view p j.
Proof.
  intros Hwf Hins.
  destruct (InsertChildAt_inv p i p1 ptr Hins) as (es & edge & Hes & Hedge & Hi).
  destruct (InsertChildAt_eq p i es edge Hwf Hes Hedge Hi)
    as (ptr' & nd0 & Hptr & Hnd0 & Hwf0 & Hcase & Heq).
  set (p0 := if (i <? 2) || (i <? LowNode.allocated_children_ p)
             then p else LowNode.Allocate p) in *.
  assert (H0 : LowNode.num_edges_ p0 = LowNode.num_edges_ p /\
               LowNode.edges_ p0 = LowNode.edges_ p /\
               forall j, 0 <= j -> view p0 j = view p j).
  { destruct Hcase as [-> | (-> & Hnone & _)]; [auto |].
    split; [reflexivity |]. split; [reflexivity |].
    intros j Hj. apply view_Allocate; assumption. }
  destruct H0 as (Hnum0 & Hes0 & Hview0).
  rewrite Hins in Heq.
  destruct (Node.index_ nd0 =? Node.kMagicIndexConstructed).
  - injection Heq as -> ->.
    split; [destruct ptr'; exact Hnum0 |]. split; [destruct ptr'; exact Hes0 |].
    intros j Hj Hne. rewrite (view_store_ne p0 i j ptr') by (assumption || lia).
    apply Hview0. exact Hj.
  - destruct (Node.Realized nd0); [| discriminate]. injection Heq as -> ->.
    split; [exact Hnum0 |]. split; [exact Hes0 |]. intros j Hj _. apply Hview0. exact Hj.
Qed.



(** X7: after [GetOrSpawnNode()] at edge [k], a loop over the edges of the
    parent meets the spawned node at index [k] and, at every other index,
    what it met before. *)
Theorem Edges_after_spawn mode p (k : nat) it ptr :
  well_formed p -> 1 <= LowNode.num_edges_ p ->
  Z.of_nat k < LowNode.num_edges_ p ->
  Edge_Iterator.GetOrSpawnNode mode (at_edge p k) = Some (it, ptr) ->
  Edge_Iterator.Edges mode (Edge_Iterator.parent_node_ it) =
  Some (<[k := (k, Some ptr)]> (edges_with_children p)) /\
  Edge_Iterator.Edges mode (Some p) = Some (edges_with_children p).
Proof.
  intros Hwf Hn Hk Hspawn. pose proof Hwf as (_ & Hnum & (es & Hes & _) & _).
  assert (He : LowNode.edges_ p <> None) by congruence.
  split; [| apply Edges_meets_every_edge; [exact He | lia]].
  unfold Edge_Iterator.GetOrSpawnNode, at_edge in Hspawn.
  cbn [Edge_Iterator.parent_node_ Edge_Iterator.node_ Edge_Iterator.current_idx_
       Edge_Iterator.edge_ Edge_Iterator.total_count_ non_null] in Hspawn.
  assert (Hassert : assert_ mode true = Some tt) by (destruct mode; reflexivity).
  rewrite Hassert in Hspawn. cbn [mbind option_bind] in Hspawn.
  assert (Hlen : length (edges_with_children p) = Z.to_nat (LowNode.num_edges_ p)).
  { unfold edges_with_children. now rewrite length_fmap, length_seq. }
  destruct (LowNode.GetChildAt p (Z.of_nat k)) as [ptr0 |] eqn:Hget.
  - injection Hspawn as <- <-. cbn [Edge_Iterator.parent_node_].
    rewrite (proj1 (Edges_meets_every_edge mode p He ltac:(lia))). f_equal.
    symmetry. apply list_insert_id. unfold edges_with_children.
    rewrite list_lookup_fmap.
    assert (Hseq : seq 0 (Z.to_nat (LowNode.num_edges_ p)) !! k = Some k)
      by (apply lookup_seq; split; [reflexivity | lia]).
    rewrite Hseq. cbn. now rewrite Hget.
  - destruct (LowNode.InsertChildAt p (Z.of_nat k)) as [[p1 ptr1] |] eqn:Hins;
      [| discriminate].
    cbn [mbind option_bind] in Hspawn. injection Hspawn as <- <-.
    cbn [Edge_Iterator.parent_node_].
    destruct (InsertChildAt_frame p (Z.of_nat k) p1 ptr1 Hwf Hins)
      as (Hnum1 & Hes1 & Hframe).
    assert (Hget1 : LowNode.GetChildAt p1 (Z.of_nat k) = Some ptr1).
    { destruct (InsertChildAt_inv p _ p1 ptr1 Hins) as (es' & edge & Hes' & Hedge & Hi).
      destruct (InsertChildAt_eq p _ es' edge Hwf Hes' Hedge Hi)
        as (ptr' & nd0 & Hptr & Hnd0 & Hwf0 & Hcase & Heq).
      rewrite Hins in Heq.
      destruct (Node.index_ nd0 =? Node.kMagicIndexConstructed).
      - injection Heq as -> ->. unfold LowNode.GetChildAt.
        rewrite FindPlaceOf_store, Hptr. cbn [mbind option_bind].
        rewrite (deref_store _ _ nd0) by exact Hnd0. cbn [mbind option_bind].
        unfold Node.Realized, Node.kMagicIndexAssigned. cbn.
        destruct (Z.ltb_spec (Z.of_nat k) 32767); [reflexivity | lia].
      - destruct (Node.Realized nd0) eqn:Hreal; [| discriminate].
        injection Heq as -> ->. unfold LowNode.GetChildAt.
        rewrite Hptr. cbn [mbind option_bind]. rewrite Hnd0. cbn [mbind option_bind].
        now rewrite Hreal. }
    rewrite (proj1 (Edges_meets_every_edge mode p1 ltac:(congruence) ltac:(lia))).
    f_equal. apply list_eq. intros j.
    unfold edges_with_children. rewrite Hnum1.
    destruct (decide (j = k)) as [-> | Hne].
    + rewrite list_lookup_insert_eq by (rewrite length_fmap, length_seq; lia).
      rewrite list_lookup_fmap.
      assert (Hseq : seq 0 (Z.to_nat (LowNode.num_edges_ p)) !! k = Some k)
        by (apply lookup_seq; split; [reflexivity | lia]).
      rewrite Hseq. cbn. now rewrite Hget1.
    + rewrite list_lookup_insert_ne by congruence.
      rewrite !list_lookup_fmap.
      destruct (seq 0 (Z.to_nat (LowNode.num_edges_ p)) !! j) as [j' |] eqn:Hseq;
        [| reflexivity].
      apply lookup_seq in Hseq as [-> _]. cbn. do 2 f_equal.
      assert (Hv : view p1 (Z.of_nat j) = view p (Z.of_nat j))
        by (apply Hframe; lia).
      destruct (LowNode.GetChildAt p1 (Z.of_nat j)) as [a |] eqn:Ha;
        destruct (LowNode.GetChildAt p (Z.of_nat j)) as [b |] eqn:Hb;
        try reflexivity.
      * destruct (GetChildAt_deref _ _ _ Ha) as (nda & Hda & _).
        destruct (GetChildAt_deref _ _ _ Hb) as (ndb & Hdb & _).
        assert (H1 : view p1 (Z.of_nat j) = Some (a, nda)) by (apply view_Some; auto).
        assert (H2 : view p (Z.of_nat j) = Some (b, ndb)) by (apply view_Some; auto).
        congruence.
      * apply view_None in Hb. destruct (GetChildAt_deref _ _ _ Ha) as (nda & Hda & _).
        assert (H1 : view p1 (Z.of_nat j) = Some (a, nda)) by (apply view_Some; auto).
        congruence.
      * apply view_None in Ha. destruct (GetChildAt_deref _ _ _ Hb) as (ndb & Hdb & _).
        assert (H2 : view p (Z.of_nat j) = Some (b, ndb)) by (apply view_Some; auto).
        congruence.
Qed.

End Spawning.


Lemma Edges_after_spawn_S1 :
  well_formed S1_position /\ 1 <= LowNode.num_edges_ S1_position /\
  Z.of_nat 1 < LowNode.num_edges_ S1_position /\
  exists it ptr,
    Edge_Iterator.GetOrSpawnNode Debug (at_edge S1_position 1) = Some (it, ptr) /\
    Edge_Iterator.Edges Debug (Edge_Iterator.parent_node_ it) =
    Some [(0%nat, None); (1%nat, Some ptr); (2%nat, None)].
Proof.
  pose proof S1_position_well_formed as Hwf.
  assert (Hn : 1 <= LowNode.num_edges_ S1_position) by (change (1 <= 3); lia).
  assert (Hk : Z.of_nat 1 < LowNode.num_edges_ S1_position) by (change (1 < 3); lia).
  split; [exact Hwf |]. split; [exact Hn |]. split; [exact Hk |].
  eexists. eexists. split; [reflexivity |].
  exact (proj1 (Edges_after_spawn Debug S1_position 1 _ _ Hwf Hn Hk eq_refl)).
Defined.

(** ** Visited children among all edges *)

Section VisitedAmongEdges.
Context {F : Type} {FO : FloatOps F}.
Implicit Types (p : LowNode.t F) (nd : Node.t F) (ptr : NodePtr).



End VisitedAmongEdges.



(** ** The started visits of a node *)

Section Started.
Context {F : Type} {FO : FloatOps F}.

(** X9: [GetNStarted()] returns [n + n_in_flight] as an [int]: it is the
    sum while the sum is below [2^31], and a negative number from there on;
    through the pair it is 0 without a node and at least [GetN()] while the
    sum is below [2^31]. *)
Theorem GetNStarted_int (nd : Node.t F) (edge : option Edge.t) :
  0 <= Node.n_ nd < 2 ^ 32 -> 0 <= Node.n_in_flight_ nd < 2 ^ 32 ->
  let sum := Node.n_ nd + Node.n_in_flight_ nd in
  let en := {| EdgeAndNode.edge_ := edge; EdgeAndNode.node_ := Some nd |} in
  - 2 ^ 31 <= Node.GetNStarted nd < 2 ^ 31 /\
  (sum < 2 ^ 31 ->
     Node.GetNStarted nd = sum /\ EdgeAndNode.GetN en <= EdgeAndNode.GetNStarted en) /\
  (2 ^ 31 <= sum < 2 ^ 32 -> Node.GetNStarted nd = sum - 2 ^ 32 /\ Node.GetNStarted nd < 0) /\
  (2 ^ 32 <= sum -> Node.GetNStarted nd < Node.n_ nd) /\
  (sum = 2 ^ 32 - 1 -> 1 + Node.GetNStarted nd = 0).
Proof.
  intros Hn Hf. cbn zeta. unfold EdgeAndNode.GetN, EdgeAndNode.GetNStarted. cbn.
  unfold Node.GetNStarted, Node.GetN, u32.
  set (s := Node.n_ nd + Node.n_in_flight_ nd).
  assert (Hs : 0 <= s < 2 ^ 33) by (unfold s; lia).
  destruct (Z.lt_ge_cases s (2 ^ 32)) as [Hlt | Hge].
  - rewrite Z.mod_small by lia.
    destruct (Z.ltb_spec s (2 ^ 31)); repeat split; intros; lia.
  - assert (Hmod : s mod 2 ^ 32 = s - 2 ^ 32).
    { symmetry. apply Z.mod_unique with 1; lia. }
    rewrite Hmod.
    destruct (Z.ltb_spec (s - 2 ^ 32) (2 ^ 31)); repeat split; intros; unfold s in *; lia.
Qed.

End Started.

Lemma GetNStarted_int_in_flight :
  let nd := Node.set_n_in_flight (Node.create (F := Q) (Edge.Make 100 0) 1) 3 in
  0 <= Node.n_ nd < 2 ^ 32 /\ 0 <= Node.n_in_flight_ nd < 2 ^ 32 /\
  - 2 ^ 31 <= Node.GetNStarted nd < 2 ^ 31.
Proof.
  cbn zeta.
  assert (Hn : 0 <= Node.n_ (Node.set_n_in_flight
                               (Node.create (F := Q) (Edge.Make 100 0) 1) 3) < 2 ^ 32)
    by (cbn; lia).
  assert (Hf : 0 <= Node.n_in_flight_ (Node.set_n_in_flight
                               (Node.create (F := Q) (Edge.Make 100 0) 1) 3) < 2 ^ 32)
    by (cbn; lia).
  split; [exact Hn |]. split; [exact Hf |].
  exact (proj1 (GetNStarted_int _ None Hn Hf)).
Defined.

(** ** Setting the evaluation and cloning *)

Section Evaluation.
Context {F : Type} {FO : FloatOps F}.
Implicit Types (p : LowNode.t F).

(** X10: [SetNNEval] works once, and only on an unvisited position: in a
    debug build it stops if the position already has an edge array or a
    finalized visit; when it returns, the position has the first
    [num_edges] edges and the values of the evaluation, its children, visit
    count and parents are untouched, and a second [SetNNEval] stops. *)
Theorem SetNNEval_once p (eval other : NNEval F) p' :
  LowNode.SetNNEval Debug p eval = Some p' ->
  LowNode.edges_ p = None /\ LowNode.n_ p = 0 /\
  LowNode.GetEdges p' = Some (take (Z.to_nat (eval_num_edges eval)) (eval_edges eval)) /\
  LowNode.GetNumEdges p' = eval_num_edges eval /\
  LowNode.GetWL p' = eval_q eval /\ LowNode.GetD p' = eval_d eval /\
  LowNode.GetM p' = eval_m eval /\
  LowNode.slots p' = LowNode.slots p /\ LowNode.GetN p' = 0 /\
  LowNode.GetNumParents p' = LowNode.GetNumParents p /\
  LowNode.IsTransposition p' = LowNode.IsTransposition p /\
  LowNode.SetNNEval Debug p' other = None.
Proof.
  unfold LowNode.SetNNEval. intros H.
  destruct (LowNode.edges_ p) as [es |] eqn:He; [discriminate |]. cbn in H.
  destruct (Z.eqb_spec (LowNode.n_ p) 0) as [Hn | Hn]; [| discriminate]. cbn in H.
  injection H as <-. cbn. rewrite Hn. repeat split.
Qed.

Lemma SetNNEval_stops p (eval : NNEval F) :
  LowNode.SetNNEval Debug p eval = None <->
  LowNode.edges_ p <> None \/ LowNode.n_ p <> 0.
Proof.
  unfold LowNode.SetNNEval.
  destruct (LowNode.edges_ p) as [es |]; cbn.
  - split; [left; discriminate | reflexivity].
  - destruct (Z.eqb_spec (LowNode.n_ p) 0) as [Hn | Hn]; cbn.
    + split; [discriminate | intros [H | H]; congruence].
    + split; [auto | reflexivity].
Qed.

(** X11: the copy constructor takes the edges and the evaluation of a
    position and nothing else: whatever the original has been through, the
    copy has no visit, no parent, no realized child, is not a transposition
    and not terminal, and has the widest bounds; it stops in a debug build
    exactly when the original has no edge array. *)
Theorem copy_is_fresh mode p q :
  LowNode.copy mode p = Some q ->
  (exists es, LowNode.edges_ p = Some es /\
              LowNode.GetEdges q = Some (take (Z.to_nat (LowNode.num_edges_ p)) es)) /\
  LowNode.GetNumEdges q = LowNode.GetNumEdges p /\
  LowNode.GetWL q = LowNode.GetWL p /\ LowNode.GetD q = LowNode.GetD p /\
  LowNode.GetM q = LowNode.GetM p /\
  LowNode.GetN q = 0 /\ LowNode.GetChildrenVisits q = 2 ^ 32 - 1 /\
  LowNode.GetNumParents q = 0 /\ LowNode.IsTransposition q = false /\
  LowNode.IsTerminal q = false /\ LowNode.GetBounds q = (BLACK_WON, WHITE_WON) /\
  LowNode.children q = [] /\ unvisited q /\ in_place q /\
  (well_formed p -> well_formed q /\ LowNode.GetEdges q = LowNode.GetEdges p).
Proof.
  unfold LowNode.copy. intros H.
  destruct (assert_ mode _); [| discriminate]. cbn in H.
  destruct (LowNode.edges_ p) as [es |] eqn:He; [| discriminate]. cbn in H.
  injection H as <-.
  split; [exists es; split; reflexivity |].
  do 11 (split; [reflexivity |]).
  split; [split; [reflexivity | repeat constructor] |].
  split.
  { intros k nd Hk. unfold LowNode.slots in Hk. cbn in Hk.
    destruct k as [| [| k]]; cbn in Hk; simplify_eq; reflexivity. }
  intros (Hs & Hn & (es' & Hes' & Hlen) & Hd).
  rewrite He in Hes'. injection Hes' as <-.
  assert (Htake : take (Z.to_nat (LowNode.num_edges_ p)) es = es)
    by (apply take_ge; lia).
  split.
  - unfold well_formed. cbn. split; [reflexivity |]. split; [exact Hn |].
    split; [| reflexivity]. exists es. rewrite Htake. auto.
  - unfold LowNode.GetEdges. cbn. rewrite Htake, He. reflexivity.
Qed.

Lemma copy_stops p :
  LowNode.copy Debug p = None <-> LowNode.edges_ p = None.
Proof.
  unfold LowNode.copy. destruct (LowNode.edges_ p) as [es |]; cbn.
  - split; discriminate.
  - split; reflexivity.
Qed.

End Evaluation.

Lemma SetNNEval_once_S1 :
  exists eval,
    LowNode.SetNNEval Debug LowNode.empty eval = Some S1_position /\
    LowNode.SetNNEval Debug S1_position eval = None.
Proof.
  exists {| eval_edges := S1_edges; eval_q := 0%Q; eval_d := 0%Q; eval_m := 0%Q;
            eval_num_edges := 3 |}.
  split; [reflexivity |].
  apply (SetNNEval_once LowNode.empty
           {| eval_edges := S1_edges; eval_q := 0%Q; eval_d := 0%Q; eval_m := 0%Q;
              eval_num_edges := 3 |} _ S1_position).
  reflexivity.
Defined.

Lemma copy_is_fresh_searched :
  exists q,
    LowNode.copy Debug prefix_position = Some q /\
    LowNode.GetN prefix_position = 2 /\
    LowNode.GetN q = 0 /\ LowNode.children q = [].
Proof.
  eexists. split; [reflexivity |]. split; [reflexivity |].
  pose proof (copy_is_fresh Debug prefix_position _ eq_refl) as H.
  split; [apply H | apply H].
Defined.

(** ** The constructor with a first child *)

Section EagerChild.
Context {F : Type} {FO : FloatOps F}.
Implicit Types (p : LowNode.t F).

(** X12: [LowNode(moves, index)] for an index inside the move list builds
    an unvisited position with exactly one realized child, in inline slot
    0, whose index is [index] and whose edge is a copy of edge [index]; the
    child sits in the slot of its index only for [index == 0]. *)
Theorem of_moves_index_child (moves : MoveList) (index : Z) :
  0 <= index < Z.of_nat (length moves) -> (length moves < 256)%nat ->
  exists p child es,
    LowNode.of_moves_index moves index = Some p /\
    LowNode.GetEdges p = Some es /\
    LowNode.children p = [child] /\
    LowNode.deref p (InStatic 0) = Some child /\
    Node.Index child = index /\
    es !! Z.to_nat index = Some (Node.edge_ child) /\
    Node.GetN child = 0 /\ Node.GetNInFlight child = 0 /\
    LowNode.GetN p = 0 /\ LowNode.GetNumParents p = 0 /\
    well_formed p /\ unvisited p /\
    (in_place p <-> index = 0).
Proof.
  intros Hi Hlen.
  assert (Hes : length (Edge.FromMovelist moves) = length moves)
    by (unfold Edge.FromMovelist; apply length_map).
  destruct (lookup_lt_is_Some_2 (Edge.FromMovelist moves) (Z.to_nat index))
    as [edge Hedge]; [lia |].
  assert (Hctor : LowNode.of_moves_index (F := F) moves index =
                  Some (LowNode.set_children (LowNode.of_moves moves)
                          [Node.create edge index; Node.constructed] None 2)).
  { unfold LowNode.of_moves_index. rewrite Hedge. reflexivity. }
  assert (Hidx : u16 index = index) by (apply u16_small; lia).
  eexists. exists (Node.create edge index), (Edge.FromMovelist moves).
  split; [exact Hctor |]. split; [reflexivity |].
  split.
  { unfold LowNode.children.
    change (LowNode.slots _) with [Node.create edge index; Node.constructed (F := F)].
    rewrite filter_cons, decide_True.
    - rewrite filter_cons, decide_False; [reflexivity | discriminate].
    - unfold Node.Realized, Node.kMagicIndexAssigned. cbn. rewrite Hidx.
      apply Z.ltb_lt. lia. }
  split; [reflexivity |]. split; [exact Hidx |]. split; [exact Hedge |].
  do 4 (split; [reflexivity |]).
  split; [eapply of_moves_index_well_formed; eassumption |].
  split; [split; [reflexivity | repeat constructor] |].
  split.
  - intros Hin. specialize (Hin 0%nat (Node.create edge index) eq_refl).
    unfold slot_in_place, Node.Realized, Node.kMagicIndexAssigned in Hin. cbn in Hin.
    rewrite Hidx in Hin. destruct (Z.ltb_spec index 32767); [| lia].
    destruct Hin as [H0 _]. exact H0.
  - intros ->. eapply of_moves_index_in_place. exact Hctor.
Qed.

End EagerChild.

Lemma of_moves_index_child_eager :
  0 <= 1 < Z.of_nat (length [100; 200; 300]) /\ (length [100; 200; 300] < 256)%nat /\
  exists p child,
    eager_position = Some p /\ LowNode.children p = [child] /\ Node.Index child = 1.
Proof.
  assert (H1 : 0 <= 1 < Z.of_nat (length [100; 200; 300])) by (cbn; lia).
  assert (H2 : (length [100; 200; 300] < 256)%nat) by (apply Nat.ltb_lt; reflexivity).
  split; [exact H1 |]. split; [exact H2 |].
  destruct (of_moves_index_child (F := Q) [100; 200; 300] 1 H1 H2)
    as (p & child & es & Hp & _ & Hc & _ & Hi & _).
  exists p, child. split; [exact Hp |]. split; [exact Hc | exact Hi].
Defined.

(** ** Counting parents *)

Section Parents.
Context {F : Type} {FO : FloatOps F}.
Implicit Types (p : LowNode.t F).

Lemma AddParent_Debug p :
  0 <= LowNode.num_parents_ p < 2 ^ 16 ->
  (LowNode.AddParent Debug p = None <-> LowNode.num_parents_ p = 2 ^ 16 - 1) /\
  (forall p', LowNode.AddParent Debug p = Some p' ->
     LowNode.num_parents_ p' = LowNode.num_parents_ p + 1 /\
     LowNode.num_parents_ p' < 2 ^ 16).
Proof.
  intros Hr. unfold LowNode.AddParent.
  destruct (Z.eq_dec (LowNode.num_parents_ p) (2 ^ 16 - 1)) as [Hmax | Hmax].
  - rewrite Hmax. cbn. split; [tauto | discriminate].
  - rewrite u16_small by lia.
    destruct (Z.ltb_spec 0 (LowNode.num_parents_ p + 1)); [| lia]. cbn.
    split; [split; [discriminate | contradiction] |].
    intros p' Hp. injection Hp as <-. cbn. lia.
Qed.

Lemma RemoveParent_Debug p :
  0 <= LowNode.num_parents_ p < 2 ^ 16 ->
  (LowNode.RemoveParent Debug p = None <-> LowNode.num_parents_ p = 0) /\
  (forall p', LowNode.RemoveParent Debug p = Some p' ->
     LowNode.num_parents_ p' = LowNode.num_parents_ p - 1 /\
     0 <= LowNode.num_parents_ p').
Proof.
  intros Hr. unfold LowNode.RemoveParent.
  destruct (Z.ltb_spec 0 (LowNode.num_parents_ p)) as [Hpos | Hzero]; cbn.
  - split; [split; [discriminate | lia] |].
    intros p' Hp. injection Hp as <-. cbn. rewrite u16_small by lia. lia.
  - split; [split; [lia | reflexivity] |]. discriminate.
Qed.

(** X13: in a debug build the parent count never wraps: [AddParent] stops
    exactly at the largest count and [RemoveParent] exactly at 0, so after
    any sequence of calls that ran through, [num_parents] is the count it
    started from plus the number of [AddParent] calls minus the number of
    [RemoveParent] calls. *)
Theorem parent_count_exact (ops : list parent_op) : forall p p',
  0 <= LowNode.num_parents_ p < 2 ^ 16 ->
  run_parent_ops Debug p ops = Some p' ->
  LowNode.GetNumParents p' = LowNode.GetNumParents p + parents_delta ops /\
  0 <= LowNode.GetNumParents p' < 2 ^ 16 /\
  (LowNode.AddParent Debug p = None <-> LowNode.GetNumParents p = 2 ^ 16 - 1) /\
  (LowNode.RemoveParent Debug p = None <-> LowNode.GetNumParents p = 0).
Proof.
  unfold LowNode.GetNumParents.
  induction ops as [| o ops IH]; intros p p' Hr Hrun.
  - cbn in Hrun. injection Hrun as <-. cbn.
    split; [lia |]. split; [exact Hr |].
    split; [apply AddParent_Debug | apply RemoveParent_Debug]; exact Hr.
  - split; [| split; [| split; [apply AddParent_Debug | apply RemoveParent_Debug];
                        exact Hr]];
      cbn [run_parent_ops] in Hrun;
      destruct (apply_parent_op Debug p o) as [q |] eqn:Hop; try discriminate;
      cbn in Hrun;
      assert (Hq : LowNode.num_parents_ q =
                   LowNode.num_parents_ p
                   + match o with AddParentOp => 1 | RemoveParentOp => -1 end /\
                   0 <= LowNode.num_parents_ q < 2 ^ 16)
        by (destruct o; cbn in Hop;
            [apply (proj2 (AddParent_Debug p Hr)) in Hop
            | apply (proj2 (RemoveParent_Debug p Hr)) in Hop]; lia);
      destruct Hq as [Hq Hqr];
      destruct (IH q p' Hqr Hrun) as (Hsum & Hrange & _).
    + rewrite Hsum, Hq. cbn [parents_delta foldr]. fold (parents_delta ops). lia.
    + exact Hrange.
Qed.

End Parents.

Lemma parent_count_exact_S3 :
  0 <= LowNode.num_parents_ S3_two_parents < 2 ^ 16 /\
  run_parent_ops Debug S3_two_parents [RemoveParentOp; RemoveParentOp]
    = Some S3_no_parent /\
  LowNode.GetNumParents S3_no_parent = 2 + parents_delta [RemoveParentOp; RemoveParentOp].
Proof.
  assert (Hr : 0 <= LowNode.num_parents_ S3_two_parents < 2 ^ 16)
    by (change (0 <= 2 < 2 ^ 16); lia).
  split; [exact Hr |]. split; [reflexivity |].
  exact (proj1 (parent_count_exact [RemoveParentOp; RemoveParentOp]
                  S3_two_parents S3_no_parent Hr eq_refl)).
Defined.

(** ** Sorting the edges of a position *)

Section SortingPositions.
Context {F : Type} {FO : FloatOps F}.
Implicit Types (p : LowNode.t F).

(** Descending order and the edges fix the sequence of priors; only the
    order of edges with equal priors is left open. *)
Lemma is_descending_Sorted (es : list Edge.t) :
  is_descending es = true -> Sorted (fun a b : Z => b <= a) (Edge.p_ <$> es).
Proof.
  induction es as [| a l IH]; intros Hd; [constructor |].
  destruct l as [| b r]; [repeat constructor |].
  cbn [is_descending] in Hd. apply andb_true_iff in Hd as [Hab Hrest].
  constructor; [exact (IH Hrest) |].
  constructor. apply Z.leb_le. exact Hab.
Qed.

Lemma descending_priors_unique (es1 es2 : list Edge.t) :
  is_descending es1 = true -> is_descending es2 = true -> es1 ≡ₚ es2 ->
  Edge.p_ <$> es1 = Edge.p_ <$> es2.
Proof.
  intros H1 H2 Hperm.
  assert (Htrans : Transitive (fun a b : Z => b <= a)) by (intros x y z; lia).
  assert (Hanti : AntiSymm (=) (fun a b : Z => b <= a)) by (intros x y; lia).
  apply (Sorted_unique (fun a b : Z => b <= a)).
  - apply is_descending_Sorted. exact H1.
  - apply is_descending_Sorted. exact H2.
  - apply fmap_Permutation. exact Hperm.
Qed.

(** X14: when [SortEdges] runs on a well-formed position it leaves the same
    edges in descending order of prior and touches nothing else; a second
    [SortEdges] runs through as well and leaves every prior where it is,
    whatever the sort does with edges of equal prior; and if no child is
    realized yet, the position keeps the storage rule. *)
Theorem SortEdges_sorts_position mode p p' es :
  well_formed p -> LowNode.edges_ p = Some es ->
  LowNode.SortEdges mode p = Some p' ->
  exists es',
    LowNode.GetEdges p' = Some es' /\
    es' ≡ₚ es /\ is_descending es' = true /\
    LowNode.GetNumEdges p' = LowNode.GetNumEdges p /\
    LowNode.slots p' = LowNode.slots p /\
    LowNode.GetN p' = LowNode.GetN p /\
    well_formed p' /\
    (exists p'' es'',
       LowNode.SortEdges mode p' = Some p'' /\
       LowNode.GetEdges p'' = Some es'' /\
       Edge.p_ <$> es'' = Edge.p_ <$> es') /\
    (LowNode.children p = [] -> in_place p -> in_place p').
Proof.
  intros Hwf Hes Hsort. pose proof Hwf as (Hs & Hn & (es0 & Hes0 & Hlen) & Hd).
  rewrite Hes in Hes0. injection Hes0 as <-.
  assert (Hsorted : forall l, Z.of_nat (length l) = LowNode.num_edges_ p ->
            Edge.SortEdges l (LowNode.num_edges_ p) = Edge.sort_desc l).
  { intros l Hl. unfold Edge.SortEdges. rewrite take_ge, drop_ge by lia.
    apply app_nil_r. }
  unfold LowNode.SortEdges in Hsort. rewrite Hes in Hsort.
  destruct (assert_ mode (non_null (Some es))) as [[] |] eqn:Ha1; [| discriminate].
  cbn [mbind option_bind] in Hsort.
  destruct (assert_ mode (LowNode.n_ p =? 0)) as [[] |] eqn:Ha2; [| discriminate].
  cbn [mbind option_bind fmap option_fmap option_map] in Hsort.
  rewrite (Hsorted es Hlen) in Hsort. injection Hsort as <-.
  destruct (sort_desc_sorts es) as [Hdesc Hperm].
  assert (Hl : Z.of_nat (length (Edge.sort_desc es)) = LowNode.num_edges_ p).
  { rewrite <- Hlen. f_equal. apply Permutation_length. exact Hperm. }
  exists (Edge.sort_desc es).
  split; [reflexivity |]. split; [exact Hperm |]. split; [exact Hdesc |].
  do 3 (split; [reflexivity |]).
  split.
  { unfold well_formed. cbn. split; [exact Hs |]. split; [exact Hn |].
    split; [| exact Hd]. exists (Edge.sort_desc es). split; [reflexivity | exact Hl]. }
  split.
  { exists (LowNode.set_edges p (Some (Edge.sort_desc (Edge.sort_desc es)))
              (LowNode.num_edges_ p)), (Edge.sort_desc (Edge.sort_desc es)).
    split.
    - unfold LowNode.SortEdges.
      cbn [LowNode.set_edges LowNode.edges_ LowNode.n_ LowNode.num_edges_].
      change (non_null (Some (Edge.sort_desc es))) with (non_null (Some es)).
      rewrite Ha1. cbn [mbind option_bind]. rewrite Ha2.
      cbn [mbind option_bind fmap option_fmap option_map].
      rewrite (Hsorted _ Hl). reflexivity.
    - split; [reflexivity |].
      destruct (sort_desc_sorts (Edge.sort_desc es)) as [Hdesc2 Hperm2].
      apply descending_priors_unique; assumption. }
  intros Hnone Hin k nd Hk.
  change (LowNode.slots (LowNode.set_edges p _ _)) with (LowNode.slots p) in Hk.
  pose proof (Hin k nd Hk) as Hslot. unfold slot_in_place in *.
  assert (Hnr : Node.Realized nd = false).
  { destruct (Node.Realized nd) eqn:Hr; [| reflexivity]. exfalso.
    eapply (filter_nil_not_elem_of _ _ nd Hnone); [exact Hr |].
    apply list_elem_of_lookup. eauto. }
  rewrite Hnr in *. exact Hslot.
Qed.

End SortingPositions.

Lemma SortEdges_sorts_position_S1 :
  well_formed S1_position /\ LowNode.edges_ S1_position = Some S1_edges /\
  exists p' es',
    LowNode.SortEdges Debug S1_position = Some p' /\
    LowNode.GetEdges p' = Some es' /\ is_descending es' = true.
Proof.
  pose proof S1_position_well_formed as Hwf.
  split; [exact Hwf |]. split; [reflexivity |].
  eexists.
  destruct (SortEdges_sorts_position Debug S1_position _ S1_edges Hwf eq_refl eq_refl)
    as (es' & Hes' & _ & Hdesc & _).
  exists es'. split; [reflexivity |]. split; [exact Hes' | exact Hdesc].
Defined.
